(** * A workspace-confined file manager: model and properties

    This development embeds the file-manager server of
    [tutorials/03_file_manager/server.py] and settles the properties
    stated for it.

    The program is a handful of tool functions over [pathlib].  The
    functions of the program ([_safe_path], [list_files], [read_file],
    [write_file], [search_files], [get_file_info], [create_directory])
    are transcribed statement by statement.  What they call in the
    interpreter is modelled as follows.

    - A Python [str] is a sequence of Unicode code points.
    - The host is POSIX: the separator is [/], [os.linesep] is a single
      line feed, path comparison is case sensitive.
    - The file tree holds regular files and directories and no symbolic
      links, so [Path.resolve] amounts to the lexical walk of
      [posixpath.realpath].
    - [pathlib] is the one of CPython 3.11 (selectors of [glob] and
      [rglob], [mkdir], [read_text], [write_text], [relative_to]).
    - The three interpreter services that are tables rather than code,
      namely [str.lower], the translation of one glob component by
      [fnmatch] and the codec registry, are parameters of the model;
      [ascii_lower], [fnmatch_simple] and [std_codecs] are the instances
      used on concrete inputs.
    - A file carries one permission bit: whether the process may open it.
      Directories can always be read and written.
    - The host encodes names as UTF-8 with [surrogateescape] and refuses
      a null character in a name; [_safe_path] raises on such an
      argument as [Path.resolve] does.  The host also limits a name to
      255 bytes and a path to 4095 bytes ([NAME_MAX] and [PATH_MAX] of
      Linux).  [exists_], [is_dir] and [is_file] answer for the paths
      within these limits ([host_path]); beyond them [Path.exists]
      raises [OSError], and the statements about a path that is not in
      the tree assume the limits.
    - The interpreter stops a recursion at 1000 nested calls, which the
      model does not count.  [mkdir(parents=True)] recurses on the
      missing directories and the compiler of glob patterns on the parts
      of the pattern; a statement that derives their outcome from the
      argument alone bounds the argument: a path of at most 256 parts
      ([shallow_path]), a pattern of one part.
    - Timestamps are left out of the metadata. *)

From Stdlib Require Import Strings.String Strings.Ascii Strings.Byte.
From Stdlib Require Import List PeanoNat NArith ZArith Lia Bool.
From Stdlib Require Import Sorting.Permutation Sorting.Sorted.
Import ListNotations.

Local Open Scope N_scope.
Local Open Scope list_scope.

#[local] Set Warnings "-register-all".

(** ** Python strings *)

Module PyStr.

(** A [str]: its code points, in order. *)
Definition pystr := list N.

(** The [str] of an ASCII literal. *)
Definition lit (s : string) : pystr :=
  map N_of_ascii (list_ascii_of_string s).

Definition pystr_eq_dec : forall a b : pystr, {a = b} + {a <> b} :=
  list_eq_dec N.eq_dec.

Definition LF : N := 10.
Definition CR : N := 13.
Definition SLASH : N := 47.
Definition DOT : N := 46.

(** [s.count(c)] for a one-character [c]. *)
Fixpoint count (c : N) (s : pystr) : nat :=
  match s with
  | [] => O
  | x :: r => if N.eqb x c then S (count c r) else count c r
  end.

(** [s.split(c)] for a one-character separator [c]: never empty, one
    more field than there are separators. *)
Fixpoint split (c : N) (s : pystr) : list pystr :=
  match s with
  | [] => [[]]
  | x :: r =>
      if N.eqb x c then [] :: split c r
      else match split c r with
           | [] => [[x]]
           | f :: fs => (x :: f) :: fs
           end
  end.

(** [s.startswith(p)]. *)
Fixpoint startswith (s p : pystr) {struct p} : bool :=
  match p with
  | [] => true
  | a :: p' =>
      match s with
      | [] => false
      | b :: s' => N.eqb a b && startswith s' p'
      end
  end.

(** [needle in hay]. *)
Fixpoint contains (needle hay : pystr) : bool :=
  startswith hay needle ||
  match hay with
  | [] => false
  | _ :: r => contains needle r
  end.

(** [c in s] for a one-character [c]. *)
Definition has_char (c : N) (s : pystr) : bool := existsb (N.eqb c) s.

(** [str.isspace] on one code point: the characters [str.strip()]
    removes (Unicode white space and the ASCII separators 0x1c-0x1f). *)
Definition isspace (c : N) : bool :=
  ((9 <=? c) && (c <=? 13)) || ((28 <=? c) && (c <=? 32))
  || (c =? 133) || (c =? 160) || (c =? 5760)
  || ((8192 <=? c) && (c <=? 8202))
  || (c =? 8232) || (c =? 8233) || (c =? 8239) || (c =? 8287)
  || (c =? 12288).

Fixpoint lstrip (s : pystr) : pystr :=
  match s with
  | [] => []
  | x :: r => if isspace x then lstrip r else s
  end.

Definition rstrip (s : pystr) : pystr := rev (lstrip (rev s)).

(** [s.strip()]. *)
Definition strip (s : pystr) : pystr := rstrip (lstrip s).

(** [str.lower] restricted to ASCII: exact on ASCII text. *)
Definition ascii_lower (s : pystr) : pystr :=
  map (fun c => if (65 <=? c) && (c <=? 90) then c + 32 else c) s.

(** [s.rfind(c)] for a one-character [c]: [None] stands for -1. *)
Fixpoint rfind (c : N) (s : pystr) : option nat :=
  match s with
  | [] => None
  | x :: r =>
      match rfind c r with
      | Some i => Some (S i)
      | None => if N.eqb x c then Some O else None
      end
  end.

End PyStr.
Import PyStr.

(** ** Pure paths *)

Module PurePath.

(** An absolute POSIX path: the parts after the root [/].  A part may be
    [..] until the path is resolved. *)
Definition Path := list pystr.

Definition path_eq_dec : forall a b : Path, {a = b} + {a <> b} :=
  list_eq_dec pystr_eq_dec.

Definition dotdot : pystr := lit "..".

(** [s] starts with the separator. *)
Definition isabs (s : pystr) : bool :=
  match s with
  | c :: _ => N.eqb c SLASH
  | [] => false
  end.

(** The parts [parse_parts] keeps of one string: the fields between
    separators, without the empty ones and the [.] ones. *)
Definition parse_parts (s : pystr) : list pystr :=
  filter (fun x => if pystr_eq_dec x [] then false
                   else if pystr_eq_dec x (lit ".") then false else true)
         (split SLASH s).

(** [p / s]: an absolute [s] replaces [p]. *)
Definition truediv (p : Path) (s : pystr) : Path :=
  (if isabs s then [] else p) ++ parse_parts s.

(** One step of [posixpath._joinrealpath] where no part is a symbolic
    link: [..] drops the last part (the root is its own parent). *)
Definition realpath_step (acc : Path) (name : pystr) : Path :=
  if pystr_eq_dec name dotdot then removelast acc else acc ++ [name].

(** [p.resolve()]. *)
Definition resolve (p : Path) : Path := fold_left realpath_step p [].

(** [str(p)]. *)
Definition str (p : Path) : pystr :=
  match p with
  | [] => [SLASH]
  | _ => List.concat (map (fun part => SLASH :: part) p)
  end.

(** [p.name]: the last part, empty for the root. *)
Definition name (p : Path) : pystr := last p [].

(** [p.parent]: the root is its own parent. *)
Definition parent (p : Path) : Path := removelast p.

(** [p.suffix]: from the last dot of the name, when that dot is neither
    the first nor the last character. *)
Definition suffix (p : Path) : pystr :=
  let nm := name p in
  match rfind DOT nm with
  | Some i =>
      if (Nat.ltb 0 i && Nat.ltb i (length nm - 1))%bool
      then skipn i nm else []
  | None => []
  end.

(** A resolved path: no part is [..]. *)
Definition canonical (p : Path) : Prop := Forall (fun part => part <> dotdot) p.

(** [p.relative_to(base)]: the parts of [p] after those of [base], when
    [p] starts with them part by part; [None] is the [ValueError]. *)
Fixpoint relative_to (p base : Path) {struct base} : option (list pystr) :=
  match base with
  | [] => Some p
  | b :: base' =>
      match p with
      | [] => None
      | x :: p' => if pystr_eq_dec b x then relative_to p' base' else None
      end
  end.

End PurePath.
Import PurePath.

(** ** Exceptions and the path check *)

(** The exceptions that can leave a call of the interpreter's library in
    this model.  [ValueError] keeps apart its five origins. *)
Inductive exn :=
| ValueError_access_denied (relative_path : pystr) (* raised by [_safe_path] *)
| ValueError_embedded_null                         (* a name with U+0000 *)
| ValueError_unacceptable_pattern                  (* [glob] of no pattern *)
| ValueError_invalid_pattern                       (* [**] inside a part *)
| ValueError_not_in_subpath                        (* [relative_to] *)
| NotImplementedError                              (* absolute glob pattern *)
| IndexError                                       (* pattern without parts *)
| LookupError (encoding : pystr)                   (* unknown codec *)
| UnicodeDecodeError
| UnicodeEncodeError
| FileNotFoundError
| FileExistsError
| NotADirectoryError
| IsADirectoryError
| PermissionError.

(** The outcome of a call: a value or a raised exception. *)
Inductive result (A : Type) :=
| Ok (a : A)
| Raise (e : exn).
Arguments Ok {A} a.
Arguments Raise {A} e.

Definition bind {A B} (r : result A) (k : A -> result B) : result B :=
  match r with
  | Ok a => k a
  | Raise e => Raise e
  end.

Notation "x <- r ;; k" := (bind r (fun x => k))
  (at level 61, r at next level, right associativity).

(** ** What the host accepts as a name *)

Module Host.

Definition NUL : N := 0.

(** A code point the filesystem encoding (UTF-8 with [surrogateescape])
    refuses: a surrogate outside U+DC80..U+DCFF. *)
Definition unencodable (c : N) : bool :=
  (55296 <=? c) && (c <=? 57343) && negb ((56448 <=? c) && (c <=? 56575)).

(** What [os.lstat] raises before it asks the host, on a path of which
    [part] is a part: the name is encoded first and then searched for a
    null character.  Both exceptions are [ValueError]s. *)
Definition fsencode_error (part : pystr) : option exn :=
  if existsb unencodable part then Some UnicodeEncodeError
  else if has_char NUL part then Some ValueError_embedded_null
  else None.

(** [posixpath.realpath] calls [os.lstat] part after part: the first
    part with such an error decides. *)
Fixpoint lstat_error (parts : list pystr) : option exn :=
  match parts with
  | [] => None
  | part :: rest =>
      match fsencode_error part with
      | Some e => Some e
      | None => lstat_error rest
      end
  end.

(** A text without a character the host refuses in a name. *)
Definition host_text (s : pystr) : bool :=
  negb (existsb unencodable s) && negb (has_char NUL s).

(** The number of bytes of a code point, and of a text, in the
    filesystem encoding. *)
Definition fs_char_length (c : N) : nat :=
  if c <? 128 then 1
  else if (56448 <=? c) && (c <=? 56575) then 1
  else if c <? 2048 then 2
  else if c <? 65536 then 3
  else 4.

Definition fs_length (s : pystr) : nat := list_sum (map fs_char_length s).

Definition NAME_MAX : nat := 255.
Definition PATH_MAX : nat := 4096.

(** A path within the limits of the host: no part longer than
    [NAME_MAX] bytes, the whole shorter than [PATH_MAX] bytes.  On such
    a path [os.stat] fails only because the path is not in the tree. *)
Definition host_path (p : Path) : bool :=
  forallb (fun part => Nat.leb (fs_length part) NAME_MAX) p
  && Nat.ltb (fs_length (str p)) PATH_MAX.

(** [mkdir(parents=True)] calls itself once for every missing directory,
    and the interpreter stops at 1000 nested calls
    ([sys.getrecursionlimit]).  A path of at most [DEPTH_MAX] parts
    stays clear of that limit when the tool is entered with less than
    700 calls pending. *)
Definition DEPTH_MAX : nat := 256.

Definition shallow_path (p : Path) : bool := Nat.leb (length p) DEPTH_MAX.

End Host.
Import Host.

Section SafePath.

(** The module-level [WORKSPACE]: absolute and already resolved. *)
Variable WORKSPACE : Path.

(** [_safe_path(relative_path)].  [resolve] asks the host about every
    part of the joined path and raises on a part it cannot ask about;
    the parts of [WORKSPACE], a directory of the host, are not of that
    kind, which leaves the parts of the argument. *)
Definition _safe_path (relative_path : pystr) : result Path :=
  match lstat_error (parse_parts relative_path) with
  | Some e => Raise e
  | None =>
      let full_path := resolve (truediv WORKSPACE relative_path) in
      if negb (startswith (str full_path) (str (resolve WORKSPACE)))
      then Raise (ValueError_access_denied relative_path)
      else Ok full_path
  end.

End SafePath.

(** Segment containment: [p] is [root] or lies below it. *)
Definition within (root p : Path) : Prop := exists rest, p = root ++ rest.

(** ** Bytes, UTF-8 and the codec registry *)

Module Codec.

Definition bytes := list byte.

Definition byte_of_N (n : N) : byte :=
  match Byte.of_N n with
  | Some b => b
  | None => x00
  end.

(** The UTF-8 code units of one code point; [None] for a surrogate (the
    only code points a [str] can hold that UTF-8 refuses). *)
Definition encode_char (c : N) : option (list N) :=
  if c <? 128 then Some [c]
  else if c <? 2048 then Some [192 + c / 64; 128 + c mod 64]
  else if c <? 65536 then
    if (55296 <=? c) && (c <=? 57343) then None
    else Some [224 + c / 4096; 128 + (c / 64) mod 64; 128 + c mod 64]
  else if c <? 1114112 then
    Some [240 + c / 262144; 128 + (c / 4096) mod 64;
          128 + (c / 64) mod 64; 128 + c mod 64]
  else None.

Fixpoint encode_units (s : pystr) : option (list N) :=
  match s with
  | [] => Some []
  | c :: r =>
      match encode_char c, encode_units r with
      | Some u, Some v => Some (u ++ v)
      | _, _ => None
      end
  end.

(** [s.encode("utf-8")]; [None] is [UnicodeEncodeError]. *)
Definition utf8_encode (s : pystr) : option bytes :=
  option_map (map byte_of_N) (encode_units s).

Definition is_cont (b : N) : bool := (128 <=? b) && (b <? 192).

Definition is_surrogate (c : N) : bool := (55296 <=? c) && (c <=? 57343).

(** Strict UTF-8 decoding of code units: shortest form only, no
    surrogate, nothing above U+10FFFF. *)
Fixpoint decode_units (bs : list N) : option pystr :=
  match bs with
  | [] => Some []
  | b0 :: r0 =>
      if b0 <? 128 then option_map (cons b0) (decode_units r0)
      else if b0 <? 192 then None
      else if b0 <? 224 then
        match r0 with
        | b1 :: r1 =>
            let c := (b0 - 192) * 64 + (b1 - 128) in
            if is_cont b1 && (128 <=? c)
            then option_map (cons c) (decode_units r1) else None
        | _ => None
        end
      else if b0 <? 240 then
        match r0 with
        | b1 :: b2 :: r2 =>
            let c := (b0 - 224) * 4096 + (b1 - 128) * 64 + (b2 - 128) in
            if is_cont b1 && is_cont b2 && (2048 <=? c)
               && negb (is_surrogate c)
            then option_map (cons c) (decode_units r2) else None
        | _ => None
        end
      else if b0 <? 248 then
        match r0 with
        | b1 :: b2 :: b3 :: r3 =>
            let c := (b0 - 240) * 262144 + (b1 - 128) * 4096
                     + (b2 - 128) * 64 + (b3 - 128) in
            if is_cont b1 && is_cont b2 && is_cont b3
               && (65536 <=? c) && (c <? 1114112)
            then option_map (cons c) (decode_units r3) else None
        | _ => None
        end
      else None
  end.

(** [b.decode("utf-8")]; [None] is [UnicodeDecodeError]. *)
Definition utf8_decode (b : bytes) : option pystr :=
  decode_units (map Byte.to_N b).

Definition latin1_decode (b : bytes) : option pystr :=
  Some (map Byte.to_N b).

Definition ascii_decode (b : bytes) : option pystr :=
  if forallb (fun x => Byte.to_N x <? 128) b
  then Some (map Byte.to_N b) else None.

(** A decoder that fails with [UnicodeDecodeError] only, as those of
    UTF-8, ASCII and Latin-1 do: [None] is that exception.  A decoder
    with another failure (the [UnicodeError] of [utf-16] on some
    streams) is outside this type. *)
Definition codec := bytes -> option pystr.

(** A codec registry: [None] is the [LookupError] of an unknown name.
    The names are those [open] passes on to the registry: without a
    null character and without a surrogate, on which [open] itself
    raises. *)
Definition registry := pystr -> option codec.

(** A name [open] passes on to the registry. *)
Definition codec_name (encoding : pystr) : bool :=
  negb (existsb (fun c => (55296 <=? c) && (c <=? 57343)) encoding)
  && negb (has_char NUL encoding).

(** An excerpt of the interpreter's registry.  A name outside the excerpt
    is unknown here; the development evaluates it only on
    [no-such-codec], which the interpreter does not know either. *)
Definition std_codecs : registry := fun enc =>
  if in_dec pystr_eq_dec enc
       [lit "utf-8"; lit "utf8"; lit "UTF-8"; lit "utf_8"] then Some utf8_decode
  else if in_dec pystr_eq_dec enc
       [lit "latin-1"; lit "latin1"; lit "iso-8859-1"] then Some latin1_decode
  else if in_dec pystr_eq_dec enc [lit "ascii"; lit "us-ascii"]
       then Some ascii_decode
  else None.

(** What text mode does to line ends when reading with [newline=None]:
    a carriage return, alone or followed by a line feed, is read as one
    line feed. *)
Fixpoint universal_newlines (s : pystr) : pystr :=
  match s with
  | [] => []
  | c :: r =>
      if c =? CR then
        LF :: match r with
              | d :: r' =>
                  if d =? LF then universal_newlines r'
                  else universal_newlines r
              | [] => []
              end
      else c :: universal_newlines r
  end.

End Codec.
Import Codec.

(** ** The file tree *)

Module FS.

(** A node of the tree.  A directory lists its entries in the order
    [scandir] returns them, which the host chooses. *)
Inductive node :=
| File (openable : bool) (data : bytes)
| Dir (entries : list (pystr * node)).

(** The tree, given by the node at [/]. *)
Definition filesystem := node.

Fixpoint assoc (nm : pystr) (es : list (pystr * node)) : option node :=
  match es with
  | [] => None
  | (k, c) :: r => if pystr_eq_dec k nm then Some c else assoc nm r
  end.

(** Replace the entry called [nm], or add it after the others. *)
Fixpoint set_child (nm : pystr) (c : node) (es : list (pystr * node))
  : list (pystr * node) :=
  match es with
  | [] => [(nm, c)]
  | (k, d) :: r =>
      if pystr_eq_dec k nm then (k, c) :: r else (k, d) :: set_child nm c r
  end.

(** The node reached from [n] along the parts [p], none of which is
    read as [..]. *)
Fixpoint find_node (n : node) (p : Path) : option node :=
  match p with
  | [] => Some n
  | nm :: rest =>
      match n with
      | Dir es =>
          match assoc nm es with
          | Some c => find_node c rest
          | None => None
          end
      | File _ _ => None
      end
  end.

(** Path resolution by the host: [cur] is the resolved position, every
    part is taken from a directory, [..] steps to the parent. *)
Fixpoint walk (fs : filesystem) (cur rest : Path) : option node :=
  match rest with
  | [] => find_node fs cur
  | nm :: rest' =>
      match find_node fs cur with
      | Some (Dir _) => walk fs (realpath_step cur nm) rest'
      | _ => None
      end
  end.

(** The node a path names, if any ([stat] without the metadata). *)
Definition os_lookup (fs : filesystem) (p : Path) : option node :=
  walk fs [] p.

(** [p.exists()], for a path the host can look up ([host_path]): the
    answer of [os.stat] is then found or not found. *)
Definition exists_ (fs : filesystem) (p : Path) : bool :=
  match os_lookup fs p with
  | Some _ => true
  | None => false
  end.

(** [p.is_dir()] *)
Definition is_dir (fs : filesystem) (p : Path) : bool :=
  match os_lookup fs p with
  | Some (Dir _) => true
  | _ => false
  end.

(** [p.is_file()] *)
Definition is_file (fs : filesystem) (p : Path) : bool :=
  match os_lookup fs p with
  | Some (File _ _) => true
  | _ => false
  end.

Definition is_dir_node (n : node) : bool :=
  match n with
  | Dir _ => true
  | File _ _ => false
  end.

(** [p.stat().st_size] of a regular file. *)
Definition st_size (data : bytes) : nat := length data.

(** A chain of new, otherwise empty directories. *)
Fixpoint fresh_dirs (p : Path) : node :=
  match p with
  | [] => Dir []
  | nm :: rest => Dir [(nm, fresh_dirs rest)]
  end.

(** [p.mkdir(parents=True, exist_ok=True)] for a resolved [p], on the
    subtree [n] that the remaining parts [p] start from.  A regular file
    on the way is [ENOTDIR]; a regular file at [p] itself is [EEXIST].
    Nothing is created when it raises. *)
Fixpoint mkdir_parents (n : node) (p : Path) : result node :=
  match p with
  | [] =>
      match n with
      | Dir _ => Ok n
      | File _ _ => Raise FileExistsError
      end
  | nm :: rest =>
      match n with
      | File _ _ => Raise NotADirectoryError
      | Dir es =>
          match assoc nm es with
          | Some c =>
              c' <- mkdir_parents c rest ;; Ok (Dir (set_child nm c' es))
          | None => Ok (Dir (es ++ [(nm, fresh_dirs rest)]))
          end
      end
  end.

(** Opening the resolved [p] for writing and leaving [data] in it: the
    file is created in an existing directory or replaced as a whole. *)
Fixpoint open_write (n : node) (p : Path) (data : bytes) : result node :=
  match p with
  | [] =>
      match n with
      | Dir _ => Raise IsADirectoryError
      | File true _ => Ok (File true data)
      | File false _ => Raise PermissionError
      end
  | nm :: rest =>
      match n with
      | File _ _ => Raise NotADirectoryError
      | Dir es =>
          match assoc nm es with
          | Some c =>
              c' <- open_write c rest data ;; Ok (Dir (set_child nm c' es))
          | None =>
              match rest with
              | [] => Ok (Dir (es ++ [(nm, File true data)]))
              | _ :: _ => Raise FileNotFoundError
              end
          end
      end
  end.

(** [p.write_text(content, encoding="utf-8")]: opening truncates the
    file before the text is encoded, so a text that cannot be encoded
    leaves an empty file behind.  Returns the number of characters. *)
Definition write_text (fs : filesystem) (p : Path) (content : pystr)
  : result nat * filesystem :=
  let enc := utf8_encode content in
  match open_write fs p (match enc with Some b => b | None => [] end) with
  | Raise e => (Raise e, fs)
  | Ok fs' =>
      match enc with
      | Some _ => (Ok (length content), fs')
      | None => (Raise UnicodeEncodeError, fs')
      end
  end.

Section Reading.

Variable codecs_lookup : registry.

(** [p.read_text(encoding=encoding)]: the file is opened, then the codec
    is looked up, then the whole file is decoded and its line ends are
    translated. *)
Definition read_text (fs : filesystem) (p : Path) (encoding : pystr)
  : result pystr :=
  match os_lookup fs p with
  | None => Raise FileNotFoundError
  | Some (Dir _) => Raise IsADirectoryError
  | Some (File false _) => Raise PermissionError
  | Some (File true data) =>
      match codecs_lookup encoding with
      | None => Raise (LookupError encoding)
      | Some decode =>
          match decode data with
          | None => Raise UnicodeDecodeError
          | Some text => Ok (universal_newlines text)
          end
      end
  end.

End Reading.

End FS.
Import FS.

(** ** Globbing and sorting *)

Module Glob.

(** The selectors [pathlib] compiles a pattern into, one per part. *)
Inductive selector :=
| Terminating
| Precise (name : pystr) (dironly : bool) (successor : selector)
| Wildcard (pat : pystr) (dironly : bool) (successor : selector)
| RecursiveWildcard (successor : selector).

Definition STAR : N := 42.
Definition QUESTION : N := 63.
Definition LBRACKET : N := 91.

Definition _is_wildcard_pattern (pat : pystr) : bool :=
  has_char STAR pat || has_char QUESTION pat || has_char LBRACKET pat.

(** [_make_selector(pattern_parts)] *)
Fixpoint _make_selector (pattern_parts : list pystr) : result selector :=
  match pattern_parts with
  | [] => Raise IndexError
  | pat :: child_parts =>
      if pystr_eq_dec pat [] then Ok Terminating
      else
        let dironly :=
          match child_parts with [] => false | _ :: _ => true end in
        let successor :=
          match child_parts with
          | [] => Ok Terminating
          | _ :: _ => _make_selector child_parts
          end in
        if pystr_eq_dec pat (lit "**") then
          s <- successor ;; Ok (RecursiveWildcard s)
        else if contains (lit "**") pat then Raise ValueError_invalid_pattern
        else if _is_wildcard_pattern pat then
          s <- successor ;; Ok (Wildcard pat dironly s)
        else s <- successor ;; Ok (Precise pat dironly s)
  end.

(** [_iterate_directories]: the directory itself, then the directories
    below each of its entries, in the order of [scandir]. *)
Fixpoint _iterate_directories (n : node) (parent_path : Path) : list Path :=
  match n with
  | File _ _ => []
  | Dir es =>
      parent_path ::
      (fix entries (l : list (pystr * node)) : list Path :=
         match l with
         | [] => []
         | (nm, c) :: r =>
             (if is_dir_node c
              then _iterate_directories c (parent_path ++ [nm]) else [])
             ++ entries r
         end) es
  end.

(** What a recursive selector lets through: each path once, at its first
    occurrence. *)
Fixpoint unseen (yielded ps : list Path) : list Path :=
  match ps with
  | [] => []
  | p :: r =>
      if in_dec path_eq_dec p yielded then unseen yielded r
      else p :: unseen (p :: yielded) r
  end.

(** A matcher for one pattern part: [*] is any run of characters, [?]
    any one character, any other character itself.  It is
    [fnmatch] on the patterns without a bracket. *)
Fixpoint fnmatch_simple (pat nm : pystr) : bool :=
  match pat with
  | [] => match nm with [] => true | _ :: _ => false end
  | c :: pat' =>
      if c =? STAR then
        (fix star (s : pystr) : bool :=
           fnmatch_simple pat' s
           || match s with
              | [] => false
              | _ :: r => star r
              end) nm
      else
        match nm with
        | [] => false
        | x :: r => ((c =? QUESTION) || (c =? x)) && fnmatch_simple pat' r
        end
  end.

Section Select.

(** [fnmatch pat name]: whether the regular expression [fnmatch]
    translates the part [pat] into matches the whole of [name]. *)
Variable fnmatch : pystr -> pystr -> bool.
Variable fs : filesystem.

(** [_select_from] of each selector class. *)
Fixpoint _select_from (sel : selector) (parent_path : Path) : list Path :=
  match sel with
  | Terminating => [parent_path]
  | Precise nm dironly successor =>
      let path := parent_path ++ [nm] in
      if (if dironly then is_dir fs path else exists_ fs path)
      then _select_from successor path else []
  | Wildcard pat dironly successor =>
      match os_lookup fs parent_path with
      | Some (Dir es) =>
          flat_map
            (fun e =>
               if dironly && negb (is_dir_node (snd e)) then []
               else if fnmatch pat (fst e)
                    then _select_from successor (parent_path ++ [fst e])
                    else [])
            es
      | _ => []
      end
  | RecursiveWildcard successor =>
      unseen []
        (flat_map (_select_from successor)
           (match os_lookup fs parent_path with
            | Some n => _iterate_directories n parent_path
            | None => []
            end))
  end.

(** [selector.select_from(parent_path)] *)
Definition select_from (sel : selector) (parent_path : Path) : list Path :=
  if negb (is_dir fs parent_path) then [] else _select_from sel parent_path.

(** The parts of a pattern; a trailing separator adds an empty part. *)
Definition pattern_parts (pattern : pystr) : list pystr :=
  parse_parts pattern ++ (if last pattern 0 =? SLASH then [[]] else []).

(** [list(self.glob(pattern))] *)
Definition glob (self : Path) (pattern : pystr) : result (list Path) :=
  if pystr_eq_dec pattern [] then Raise ValueError_unacceptable_pattern
  else if isabs pattern then Raise NotImplementedError
  else
    sel <- _make_selector (pattern_parts pattern) ;;
    Ok (select_from sel self).

(** [list(self.rglob(pattern))] *)
Definition rglob (self : Path) (pattern : pystr) : result (list Path) :=
  if isabs pattern then Raise NotImplementedError
  else
    sel <- _make_selector (lit "**" :: pattern_parts pattern) ;;
    Ok (select_from sel self).

End Select.

Section Lexicographic.

Variable A : Type.
Variable lt : A -> A -> bool.
Variable eq_dec : forall x y : A, {x = y} + {x <> y}.

(** The order of sequences: decided at the first position where the two
    differ, a proper prefix coming first. *)
Fixpoint lex_lt (a b : list A) : bool :=
  match a, b with
  | _, [] => false
  | [], _ :: _ => true
  | x :: a', y :: b' =>
      lt x y || (if eq_dec x y then lex_lt a' b' else false)
  end.

End Lexicographic.

(** The order of [str]: by code point. *)
Definition str_lt : pystr -> pystr -> bool := lex_lt N N.ltb N.eq_dec.

(** The order of paths: part by part. *)
Definition path_lt : Path -> Path -> bool := lex_lt pystr str_lt pystr_eq_dec.

Fixpoint insert (x : Path) (l : list Path) : list Path :=
  match l with
  | [] => [x]
  | y :: r => if path_lt y x then y :: insert x r else x :: l
  end.

(** [sorted(items)]: a stable sort by [path_lt]. *)
Definition sorted (items : list Path) : list Path :=
  fold_right insert [] items.

End Glob.
Import Glob.

(** ** The tools of the server *)

Module Server.

(** The size shown for a file in a listing: the unit chosen by the two
    thresholds, with the byte count it is computed from. *)
Inductive size_str :=
| Size_B (size : nat)
| Size_KB (size : nat)
| Size_MB (size : nat).

(** One line of a listing. *)
Inductive entry :=
| EntryDir (relative : list pystr)
| EntryFile (relative : list pystr) (size : size_str).

(** One line of a search result: the path relative to the workspace, the
    line number and the stripped line. *)
Record hit := Hit {
  hit_relative : list pystr;
  hit_lineno : nat;
  hit_text : pystr
}.

(** The texts the tools return.  A constructor is one f-string of the
    source and its arguments are the values the f-string interpolates. *)
Inductive message :=
| StrOfException (e : exn)                        (* [str(e)] *)
| MsgDirectoryMissing (directory : pystr)         (* list, search *)
| MsgNotADirectory (directory : pystr)
| MsgNoMatch (directory pattern : pystr)
| MsgListing (directory pattern : pystr) (lines : list entry) (total : nat)
| MsgFileMissing (file_path : pystr)
| MsgNotAFile (file_path : pystr)
| MsgBinary (file_path : pystr)
| MsgContent (file_path : pystr) (lines : nat) (content : pystr)
| MsgEncodingError (encoding : pystr)
| MsgFileExists (file_path : pystr)
| MsgSaved (file_path : pystr) (size : nat) (lines : nat)
| MsgSearchNone (keyword directory file_pattern : pystr) (files_searched : nat)
| MsgSearchHits (keyword : pystr) (count : nat) (directory file_pattern : pystr)
                (results : list hit)
| MsgPathMissing (file_path : pystr)
| MsgFileInfo (file_path suffix : pystr) (size : nat)
| MsgDirInfo (file_path : pystr) (dirs files : nat)
| MsgAlreadyExists (dir_path : pystr)
| MsgDirCreated (dir_path : pystr).

(** [isinstance(e, ValueError)]: the Unicode errors are [ValueError]s. *)
Definition is_ValueError (e : exn) : bool :=
  match e with
  | ValueError_access_denied _ | ValueError_embedded_null
  | ValueError_unacceptable_pattern | ValueError_invalid_pattern
  | ValueError_not_in_subpath | UnicodeDecodeError | UnicodeEncodeError => true
  | _ => false
  end.

Definition binary_extensions : list pystr :=
  [lit ".png"; lit ".jpg"; lit ".jpeg"; lit ".gif"; lit ".pdf"; lit ".zip";
   lit ".exe"].

Section Tools.

Variable WORKSPACE : Path.

(** [str.lower] *)
Variable lower : pystr -> pystr.
Variable fnmatch : pystr -> pystr -> bool.
Variable codecs_lookup : registry.

(** The guarded call every tool starts with:
    [try: path = _safe_path(s)  except ValueError as e: return str(e)]. *)
Definition try_safe_path (s : pystr) : result message + Path :=
  match _safe_path WORKSPACE s with
  | Ok path => inr path
  | Raise e => inl (if is_ValueError e then Ok (StrOfException e) else Raise e)
  end.

(** *** list_files *)

Definition size_of (size : nat) : size_str :=
  if Nat.ltb size 1024 then Size_B size
  else if Nat.ltb size (1024 * 1024) then Size_KB size
  else Size_MB size.

(** The body of the loop over the items. *)
Definition list_item (fs : filesystem) (item : Path) : result entry :=
  match relative_to item WORKSPACE with
  | None => Raise ValueError_not_in_subpath
  | Some relative =>
      if is_dir fs item then Ok (EntryDir relative)
      else
        match os_lookup fs item with
        | Some (File _ data) => Ok (EntryFile relative (size_of (st_size data)))
        | _ => Raise FileNotFoundError
        end
  end.

Fixpoint list_items (fs : filesystem) (items : list Path)
  : result (list entry) :=
  match items with
  | [] => Ok []
  | item :: rest =>
      line <- list_item fs item ;;
      lines <- list_items fs rest ;;
      Ok (line :: lines)
  end.

Definition list_files (fs : filesystem) (directory pattern : pystr)
  : result message :=
  match try_safe_path directory with
  | inl r => r
  | inr target =>
      if negb (exists_ fs target) then Ok (MsgDirectoryMissing directory)
      else if negb (is_dir fs target) then Ok (MsgNotADirectory directory)
      else
        found <- glob fnmatch fs target pattern ;;
        let items := sorted found in
        match items with
        | [] => Ok (MsgNoMatch directory pattern)
        | _ :: _ =>
            lines <- list_items fs items ;;
            Ok (MsgListing directory pattern lines (length items))
        end
  end.

(** *** read_file *)

Definition read_file (fs : filesystem) (file_path encoding : pystr)
  : result message :=
  match try_safe_path file_path with
  | inl r => r
  | inr path =>
      if negb (exists_ fs path) then Ok (MsgFileMissing file_path)
      else if negb (is_file fs path) then Ok (MsgNotAFile file_path)
      else if in_dec pystr_eq_dec (lower (suffix path)) binary_extensions
      then Ok (MsgBinary file_path)
      else
        match read_text codecs_lookup fs path encoding with
        | Ok content =>
            let lines := (count LF content + 1)%nat in
            Ok (MsgContent file_path lines content)
        | Raise UnicodeDecodeError => Ok (MsgEncodingError encoding)
        | Raise e => Raise e
        end
  end.

(** *** write_file *)

Definition write_file (fs : filesystem) (file_path content : pystr)
  (overwrite : bool) : result message * filesystem :=
  match try_safe_path file_path with
  | inl r => (r, fs)
  | inr path =>
      if exists_ fs path && negb overwrite
      then (Ok (MsgFileExists file_path), fs)
      else
        match mkdir_parents fs (parent path) with
        | Raise e => (Raise e, fs)
        | Ok fs1 =>
            match write_text fs1 path content with
            | (Raise e, fs2) => (Raise e, fs2)
            | (Ok _, fs2) =>
                (Ok (MsgSaved file_path (length content)
                       (count LF content + 1)%nat), fs2)
            end
        end
  end.

(** *** search_files *)

(** The loop over [enumerate(content.split("\n"), i)]: the hits of one
    file, in line order. *)
Fixpoint scan_lines (keyword : pystr) (file_path : Path) (i : nat)
  (lines : list pystr) : result (list hit) :=
  match lines with
  | [] => Ok []
  | line :: rest =>
      if contains (lower keyword) (lower line) then
        match relative_to file_path WORKSPACE with
        | None => Raise ValueError_not_in_subpath
        | Some relative =>
            more <- scan_lines keyword file_path (S i) rest ;;
            Ok (Hit relative i (strip line) :: more)
        end
      else scan_lines keyword file_path (S i) rest
  end.

(** The loop over the files [rglob] yields, with its two accumulators. *)
Fixpoint search_loop (fs : filesystem) (keyword : pystr) (files : list Path)
  (results : list hit) (files_searched : nat) : result (list hit * nat) :=
  match files with
  | [] => Ok (results, files_searched)
  | file_path :: rest =>
      if negb (is_file fs file_path)
      then search_loop fs keyword rest results files_searched
      else
        let files_searched := S files_searched in
        match read_text codecs_lookup fs file_path (lit "utf-8") with
        | Ok content =>
            found <- scan_lines keyword file_path 1 (split LF content) ;;
            search_loop fs keyword rest (results ++ found) files_searched
        | Raise UnicodeDecodeError | Raise PermissionError =>
            search_loop fs keyword rest results files_searched
        | Raise e => Raise e
        end
  end.

Definition search_files (fs : filesystem)
  (keyword file_pattern directory : pystr) : result message :=
  match try_safe_path directory with
  | inl r => r
  | inr search_dir =>
      if negb (exists_ fs search_dir) then Ok (MsgDirectoryMissing directory)
      else
        files <- rglob fnmatch fs search_dir file_pattern ;;
        scanned <- search_loop fs keyword files [] 0 ;;
        let (results, files_searched) := scanned in
        match results with
        | [] =>
            Ok (MsgSearchNone keyword directory file_pattern files_searched)
        | _ :: _ =>
            Ok (MsgSearchHits keyword (length results) directory file_pattern
                  results)
        end
  end.

(** *** get_file_info *)

Definition get_file_info (fs : filesystem) (file_path : pystr)
  : result message :=
  match try_safe_path file_path with
  | inl r => r
  | inr path =>
      if negb (exists_ fs path) then Ok (MsgPathMissing file_path)
      else
        match os_lookup fs path with
        | Some (File _ data) =>
            let size := st_size data in
            Ok (MsgFileInfo file_path (suffix path) size)
        | Some (Dir items) =>
            let dirs := length (filter (fun i => is_dir_node (snd i)) items) in
            let files :=
              length (filter (fun i => negb (is_dir_node (snd i))) items) in
            Ok (MsgDirInfo file_path dirs files)
        | None => Raise FileNotFoundError
        end
  end.

(** *** create_directory *)

Definition create_directory (fs : filesystem) (dir_path : pystr)
  : result message * filesystem :=
  match try_safe_path dir_path with
  | inl r => (r, fs)
  | inr path =>
      if exists_ fs path then (Ok (MsgAlreadyExists dir_path), fs)
      else
        match mkdir_parents fs path with
        | Raise e => (Raise e, fs)
        | Ok fs' => (Ok (MsgDirCreated dir_path), fs')
        end
  end.

End Tools.

(** What [search_files] tells its caller about the number of files it
    went through: only the text for an empty result carries it. *)
Definition reports_files_searched (m : message) (n : nat) : Prop :=
  match m with
  | MsgSearchNone _ _ _ k => k = n
  | _ => False
  end.

End Server.
Import Server.

(** ** The tools as the dispatcher sees them *)

Module Dispatch.

(** A call of one of the six tools with its arguments. *)
Inductive call :=
| CallList (directory pattern : pystr)
| CallRead (file_path encoding : pystr)
| CallWrite (file_path content : pystr) (overwrite : bool)
| CallSearch (keyword file_pattern directory : pystr)
| CallInfo (file_path : pystr)
| CallMkdir (dir_path : pystr).

(** The path argument of a call. *)
Definition path_argument (c : call) : pystr :=
  match c with
  | CallList directory _ => directory
  | CallRead file_path _ => file_path
  | CallWrite file_path _ _ => file_path
  | CallSearch _ _ directory => directory
  | CallInfo file_path => file_path
  | CallMkdir dir_path => dir_path
  end.

Section Run.

Variable WORKSPACE : Path.
Variable lower : pystr -> pystr.
Variable fnmatch : pystr -> pystr -> bool.
Variable codecs_lookup : registry.

(** What the dispatcher gets from a call, and the tree it leaves. *)
Definition run (fs : filesystem) (c : call) : result message * filesystem :=
  match c with
  | CallList directory pattern =>
      (list_files WORKSPACE fnmatch fs directory pattern, fs)
  | CallRead file_path encoding =>
      (read_file WORKSPACE lower codecs_lookup fs file_path encoding, fs)
  | CallWrite file_path content overwrite =>
      write_file WORKSPACE fs file_path content overwrite
  | CallSearch keyword file_pattern directory =>
      (search_files WORKSPACE lower fnmatch codecs_lookup fs
         keyword file_pattern directory, fs)
  | CallInfo file_path => (get_file_info WORKSPACE fs file_path, fs)
  | CallMkdir dir_path => create_directory WORKSPACE fs dir_path
  end.

(** The failures of the error taxonomy, each with the call and the state
    in which it arises and the text it is to be reported with.

    A path escape is a path argument that resolves outside the
    workspace, part by part; the constructor covers the escapes after
    which the string of the resolved path does not begin with the string
    of the workspace's.  A path that is not found is one the host can
    look up.  A decoding error is one of the UTF-8 decoder. *)
Inductive taxonomy_failure (fs : filesystem) : call -> message -> Prop :=
| PathEscape c full_path :
    host_text (path_argument c) = true ->
    full_path = resolve (truediv WORKSPACE (path_argument c)) ->
    ~ within (resolve WORKSPACE) full_path ->
    startswith (str full_path) (str (resolve WORKSPACE)) = false ->
    taxonomy_failure fs c
      (StrOfException (ValueError_access_denied (path_argument c)))
| NotFound_list directory pattern target :
    _safe_path WORKSPACE directory = Ok target ->
    host_path target = true ->
    exists_ fs target = false ->
    taxonomy_failure fs (CallList directory pattern)
      (MsgDirectoryMissing directory)
| NotFound_read file_path encoding path :
    _safe_path WORKSPACE file_path = Ok path ->
    host_path path = true ->
    exists_ fs path = false ->
    taxonomy_failure fs (CallRead file_path encoding)
      (MsgFileMissing file_path)
| NotFound_search keyword file_pattern directory search_dir :
    _safe_path WORKSPACE directory = Ok search_dir ->
    host_path search_dir = true ->
    exists_ fs search_dir = false ->
    taxonomy_failure fs (CallSearch keyword file_pattern directory)
      (MsgDirectoryMissing directory)
| NotFound_info file_path path :
    _safe_path WORKSPACE file_path = Ok path ->
    host_path path = true ->
    exists_ fs path = false ->
    taxonomy_failure fs (CallInfo file_path) (MsgPathMissing file_path)
| NotADirectory directory pattern target :
    _safe_path WORKSPACE directory = Ok target ->
    exists_ fs target = true ->
    is_dir fs target = false ->
    taxonomy_failure fs (CallList directory pattern)
      (MsgNotADirectory directory)
| NotAFile file_path encoding path :
    _safe_path WORKSPACE file_path = Ok path ->
    exists_ fs path = true ->
    is_file fs path = false ->
    taxonomy_failure fs (CallRead file_path encoding) (MsgNotAFile file_path)
| AlreadyExists_write file_path content path :
    _safe_path WORKSPACE file_path = Ok path ->
    exists_ fs path = true ->
    taxonomy_failure fs (CallWrite file_path content false)
      (MsgFileExists file_path)
| AlreadyExists_mkdir dir_path path :
    _safe_path WORKSPACE dir_path = Ok path ->
    exists_ fs path = true ->
    taxonomy_failure fs (CallMkdir dir_path) (MsgAlreadyExists dir_path)
| BinaryFileRejected file_path encoding path :
    _safe_path WORKSPACE file_path = Ok path ->
    is_file fs path = true ->
    In (lower (suffix path)) binary_extensions ->
    taxonomy_failure fs (CallRead file_path encoding) (MsgBinary file_path)
| DecodeError file_path encoding path data :
    _safe_path WORKSPACE file_path = Ok path ->
    os_lookup fs path = Some (File true data) ->
    ~ In (lower (suffix path)) binary_extensions ->
    codecs_lookup encoding = Some utf8_decode ->
    utf8_decode data = None ->
    taxonomy_failure fs (CallRead file_path encoding)
      (MsgEncodingError encoding).

End Run.

End Dispatch.
Import Dispatch.

(** ** Reference definitions for the statements *)

Module Reference.

(** The lines of a text numbered from [i], as [enumerate] pairs them. *)
Fixpoint enumerate (i : nat) (lines : list pystr) : list (nat * pystr) :=
  match lines with
  | [] => []
  | line :: rest => (i, line) :: enumerate (S i) rest
  end.

(** The hits a file should give: one per line that contains the keyword
    when both are lowered, with the number of the line counted from 1
    and the line without its surrounding white space. *)
Definition expected_hits (lower : pystr -> pystr) (keyword : pystr)
  (relative : list pystr) (content : pystr) : list hit :=
  map (fun il => Hit relative (fst il) (strip (snd il)))
      (filter (fun il => contains (lower keyword) (lower (snd il)))
              (enumerate 1 (split LF content))).

(** A pattern of one part that names entries of the directory itself:
    not empty, without separator, without [**], and neither [.] nor
    [..]. *)
Definition one_part_pattern (pattern : pystr) : Prop :=
  pattern <> [] /\ has_char SLASH pattern = false
  /\ contains (lit "**") pattern = false
  /\ pattern <> lit "." /\ pattern <> dotdot.

(** Whether an entry name is selected by a one-part pattern: through
    [fnmatch] when the pattern has a wildcard character, by equality
    otherwise. *)
Definition name_matches (fnmatch : pystr -> pystr -> bool)
  (pattern nm : pystr) : bool :=
  if _is_wildcard_pattern pattern then fnmatch pattern nm
  else if pystr_eq_dec pattern nm then true else false.

(** The entries of a directory a one-part pattern selects, as paths. *)
Definition matching_children (fnmatch : pystr -> pystr -> bool)
  (target : Path) (pattern : pystr) (es : list (pystr * node)) : list Path :=
  map (fun e => target ++ [fst e])
      (filter (fun e => name_matches fnmatch pattern (fst e)) es).

(** A directory as a host keeps it: no two entries of one name, none
    called [..]. *)
Definition wf_entries (es : list (pystr * node)) : Prop :=
  NoDup (map fst es) /\ ~ In dotdot (map fst es).

Definition path_le (a b : Path) : Prop := path_lt b a = false.

(** The line of a listing for the item [item] of the directory with the
    entries [es], which lies at [relative] in the workspace: a directory
    by its path, a file by its path and size. *)
Definition listing_line (relative : list pystr) (es : list (pystr * node))
  (item : Path) : entry :=
  let nm := name item in
  match assoc nm es with
  | Some (File _ data) => EntryFile (relative ++ [nm]) (size_of (st_size data))
  | _ => EntryDir (relative ++ [nm])
  end.

End Reference.
Import Reference.

(** ** Sample trees *)

Module Sample.

Definition WORKSPACE : Path := [lit "workspace"].

Definition text (s : string) : bytes := map byte_of_N (lit s).

(** [a.txt] has the words on its second line, [b.txt] has no match. *)
Definition notes : filesystem :=
  Dir [(lit "workspace",
        Dir [(lit "b.txt", File true (text "nothing to see"));
             (lit "a.txt",
              File true (text "first line" ++ [x0a] ++ text "hello world"
                           ++ [x0a]))])].

(** A workspace with a directory, an image, a file the process may not
    open and a file that is not UTF-8, next to a sibling directory whose
    name starts with the name of the workspace. *)
Definition mixed : filesystem :=
  Dir [(lit "workspace",
        Dir [(lit "sub", Dir [(lit "locked.txt", File false (text "hello"))]);
             (lit "image.png", File true (text "hello"));
             (lit "a.txt", File true (text "hello"));
             (lit "raw.txt", File true [xff; xfe])]);
       (lit "workspace-evil",
        Dir [(lit "secret.txt", File true (text "hello secret"))])].

(** The one-character text U+AC00. *)
Definition hangul_ga : pystr := [44032].

(** A text of two lines, the first not ASCII. *)
Definition ga_text : pystr := hangul_ga ++ [LF] ++ lit "two".

(** [notes] after [ga_text] was written to [new/ga.txt]. *)
Definition notes_ga : filesystem :=
  Eval vm_compute in
    snd (write_file WORKSPACE notes (lit "new/ga.txt") ga_text true).

End Sample.

(** ** The workspace resource *)

Module Resource.

(** The text of the resource [files://workspace]: the workspace, the
    numbers of directories and of files among its entries, and the
    number of entries. *)
Inductive resource_text :=
| WorkspaceInfo (workspace : Path) (dirs files total : nat).

(** [list(p.iterdir())] *)
Definition iterdir (fs : filesystem) (p : Path)
  : result (list (pystr * node)) :=
  match os_lookup fs p with
  | Some (Dir es) => Ok es
  | Some (File _ _) => Raise NotADirectoryError
  | None => Raise FileNotFoundError
  end.

Section Info.

Variable WORKSPACE : Path.

(** [workspace_info()] *)
Definition workspace_info (fs : filesystem) : result resource_text :=
  items <- iterdir fs WORKSPACE ;;
  let dirs := length (filter (fun i => is_dir_node (snd i)) items) in
  let files := length (filter (fun i => negb (is_dir_node (snd i))) items) in
  Ok (WorkspaceInfo WORKSPACE dirs files (length items)).

End Info.

(** Parts as a host names entries: not empty and without separator. *)
Definition plain_parts (p : Path) : Prop :=
  Forall (fun part => part <> [] /\ has_char SLASH part = false) p.

(** What is kept of the path [q] from the tree [n] to the tree [n']: a
    regular file with its permission bit and bytes, a directory as a
    directory. *)
Definition kept (n n' : node) (q : Path) : Prop :=
  match find_node n q with
  | Some (File openable data) => find_node n' q = Some (File openable data)
  | Some (Dir _) => exists es', find_node n' q = Some (Dir es')
  | None => True
  end.

(** The hits one path contributes to a search: those of its text when
    it names a regular file that can be opened and decodes, none
    otherwise. *)
Definition file_hits (WORKSPACE : Path) (lower : pystr -> pystr)
  (decode : codec) (fs : filesystem) (keyword : pystr) (file_path : Path)
  : list hit :=
  match os_lookup fs file_path, relative_to file_path WORKSPACE with
  | Some (File true data), Some relative =>
      match decode data with
      | Some text =>
          expected_hits lower keyword relative (universal_newlines text)
      | None => []
      end
  | _, _ => []
  end.

End Resource.
Import Resource.

(** ** Proof automation *)

(** Linear arithmetic over [N] with division and remainder by constants. *)
Ltac nlia := zify; Z.to_euclidean_division_equations; lia.

(** Boolean comparisons in the context, as propositions. *)
Ltac cmp_to_prop :=
  repeat match goal with
         | H : (_ <? _) = true |- _ => apply N.ltb_lt in H
         | H : (_ <? _) = false |- _ => apply N.ltb_ge in H
         | H : (_ <=? _) = true |- _ => apply N.leb_le in H
         | H : (_ <=? _) = false |- _ => apply N.leb_gt in H
         | H : (_ && _)%bool = true |- _ => apply andb_true_iff in H; destruct H
         | H : (_ && _)%bool = false |- _ =>
             apply andb_false_iff in H; destruct H
         | H : negb _ = true |- _ => apply negb_true_iff in H
         | H : negb _ = false |- _ => apply negb_false_iff in H
         end.

(** * Properties *)

(** ** Resolved paths and the host's lookup *)

Lemma removelast_Forall {A} (P : A -> Prop) (l : list A) :
  Forall P l -> Forall P (removelast l).
Proof.
  induction 1 as [|x l Hx Hl IH]; simpl; [constructor|].
  destruct l; [constructor|]. constructor; assumption.
Qed.

Lemma realpath_step_canonical acc nm :
  canonical acc -> canonical (realpath_step acc nm).
Proof.
  intros Hacc. unfold realpath_step.
  destruct (pystr_eq_dec nm dotdot) as [|Hne].
  - now apply removelast_Forall.
  - apply Forall_app. split; [assumption|]. repeat constructor. exact Hne.
Qed.

Lemma fold_realpath_canonical p :
  forall acc, canonical acc -> canonical (fold_left realpath_step p acc).
Proof.
  induction p as [|nm p IH]; intros acc Hacc; simpl; [assumption|].
  apply IH. now apply realpath_step_canonical.
Qed.

Lemma resolve_canonical p : canonical (resolve p).
Proof. apply fold_realpath_canonical. constructor. Qed.

Lemma safe_path_inv W s p :
  _safe_path W s = Ok p ->
  p = resolve (truediv W s) /\ startswith (str p) (str (resolve W)) = true.
Proof.
  unfold _safe_path. destruct (lstat_error _); [discriminate|].
  destruct (startswith _ _) eqn:E; simpl; intros H; inversion H; subst.
  split; [reflexivity | exact E].
Qed.

Lemma safe_path_canonical W s p : _safe_path W s = Ok p -> canonical p.
Proof.
  intros H. apply safe_path_inv in H. destruct H as [-> _].
  apply resolve_canonical.
Qed.

Lemma lstat_error_cases parts e :
  lstat_error parts = Some e ->
  e = UnicodeEncodeError \/ e = ValueError_embedded_null.
Proof.
  induction parts as [|part rest IH]; simpl; [discriminate|].
  unfold fsencode_error.
  destruct (existsb unencodable part); [intros [= <-]; now left|].
  destruct (has_char NUL part); [intros [= <-]; now right | exact IH].
Qed.

(** What [_safe_path] raises is a [ValueError]: the tools return it as
    its text. *)
Lemma safe_path_raise W s e :
  _safe_path W s = Raise e -> is_ValueError e = true.
Proof.
  unfold _safe_path. destruct (lstat_error _) as [e0|] eqn:E.
  - intros [= <-]. now destruct (lstat_error_cases _ _ E) as [-> | ->].
  - destruct (negb _); intros H; inversion H. reflexivity.
Qed.

Lemma split_chars c s : forall f x, In f (split c s) -> In x f -> In x s.
Proof.
  induction s as [|y r IH]; intros f x; simpl.
  - intros [<-|[]] [].
  - destruct (N.eqb y c).
    + intros [<-|Hf] Hx; [destruct Hx|]. right. now apply (IH f).
    + destruct (split c r) as [|g gs] eqn:E.
      * intros [<-|[]] [<-|[]]. now left.
      * intros [<-|Hf] Hx.
        -- destruct Hx as [<-|Hx]; [now left|]. right.
           apply (IH g); [now left | exact Hx].
        -- right. apply (IH f); [now right | exact Hx].
Qed.

Lemma existsb_incl {A} (f : A -> bool) (l l' : list A) :
  (forall x, In x l -> In x l') -> existsb f l' = false -> existsb f l = false.
Proof.
  intros Hincl Hl'. destruct (existsb f l) eqn:E; [|reflexivity].
  apply existsb_exists in E. destruct E as (x & Hx & Hfx).
  assert (H : existsb f l' = true)
    by (apply existsb_exists; exists x; split; [now apply Hincl | exact Hfx]).
  rewrite Hl' in H. discriminate H.
Qed.

(** A text the host accepts has only parts the host accepts. *)
Lemma host_text_lstat s :
  host_text s = true -> lstat_error (parse_parts s) = None.
Proof.
  unfold host_text. intros H. apply andb_true_iff in H.
  destruct H as [Hu Hn]. apply negb_true_iff in Hu, Hn.
  assert (Hparts : forall part, In part (parse_parts s) ->
                                fsencode_error part = None).
  { intros part Hin. unfold parse_parts in Hin. apply filter_In in Hin.
    destruct Hin as [Hin _]. unfold fsencode_error, has_char in *.
    rewrite (existsb_incl unencodable part s),
      (existsb_incl (N.eqb NUL) part s);
      try assumption; try reflexivity;
      intros x Hx; now apply (split_chars SLASH s part). }
  induction (parse_parts s) as [|part rest IH]; [reflexivity|].
  simpl. rewrite (Hparts part); [|now left].
  apply IH. intros q Hq. apply Hparts. now right.
Qed.

Lemma safe_path_denied W s :
  lstat_error (parse_parts s) = None ->
  startswith (str (resolve (truediv W s))) (str (resolve W)) = false ->
  _safe_path W s = Raise (ValueError_access_denied s).
Proof. intros Hl Hs. unfold _safe_path. now rewrite Hl, Hs. Qed.

Lemma find_node_app n a b :
  find_node n (a ++ b) =
  match find_node n a with
  | Some m => find_node m b
  | None => None
  end.
Proof.
  revert n. induction a as [|nm a IH]; intros n; simpl; [reflexivity|].
  destruct n as [|es]; [reflexivity|].
  destruct (assoc nm es); [apply IH | reflexivity].
Qed.

Lemma walk_canonical fs p :
  canonical p -> forall cur, walk fs cur p = find_node fs (cur ++ p).
Proof.
  induction 1 as [|nm p Hnm Hp IH]; intros cur; simpl.
  - now rewrite app_nil_r.
  - destruct (find_node fs cur) as [[|es]|] eqn:E.
    + rewrite find_node_app, E. reflexivity.
    + unfold realpath_step.
      destruct (pystr_eq_dec nm dotdot); [contradiction|].
      rewrite IH, <- app_assoc. reflexivity.
    + rewrite find_node_app, E. reflexivity.
Qed.

Lemma os_lookup_canonical fs p :
  canonical p -> os_lookup fs p = find_node fs p.
Proof. intros H. unfold os_lookup. now rewrite walk_canonical. Qed.

Lemma try_safe_path_ok W s p :
  _safe_path W s = Ok p -> try_safe_path W s = inr p.
Proof. unfold try_safe_path. now intros ->. Qed.

Lemma try_safe_path_raise W s e :
  _safe_path W s = Raise e ->
  try_safe_path W s = inl (Ok (StrOfException e)).
Proof.
  intros H. unfold try_safe_path. rewrite H.
  now rewrite (safe_path_raise _ _ _ H).
Qed.

Lemma exists_lookup fs p n : os_lookup fs p = Some n -> exists_ fs p = true.
Proof. unfold exists_. now intros ->. Qed.

Lemma exists_missing fs p : os_lookup fs p = None -> exists_ fs p = false.
Proof. unfold exists_. now intros ->. Qed.

Lemma is_file_lookup fs p openable data :
  os_lookup fs p = Some (File openable data) -> is_file fs p = true.
Proof. unfold is_file. now intros ->. Qed.

Lemma is_dir_lookup fs p es :
  os_lookup fs p = Some (Dir es) -> is_dir fs p = true.
Proof. unfold is_dir. now intros ->. Qed.

Lemma is_dir_file fs p openable data :
  os_lookup fs p = Some (File openable data) -> is_dir fs p = false.
Proof. unfold is_dir. now intros ->. Qed.

Lemma is_file_dir fs p es :
  os_lookup fs p = Some (Dir es) -> is_file fs p = false.
Proof. unfold is_file. now intros ->. Qed.

(** ** The path check *)

Example safe_path_rejects_traversal :
  _safe_path Sample.WORKSPACE (lit "../../etc/passwd")
  = Raise (ValueError_access_denied (lit "../../etc/passwd")).
Proof. reflexivity. Qed.

(** C1: the path check should refuse every path that leaves the
    workspace, by containment of path parts.  The check of the code
    compares the two paths as strings: with the workspace at
    [/workspace], the argument [../workspace-evil/secret.txt] resolves
    to [/workspace-evil/secret.txt], which is not below [/workspace] but
    is returned as safe, and [read_file] then returns the content of
    that file. *)
Theorem safe_path_accepts_sibling_with_prefix :
  let escaped := [lit "workspace-evil"; lit "secret.txt"] in
  _safe_path Sample.WORKSPACE (lit "../workspace-evil/secret.txt") = Ok escaped
  /\ ~ within Sample.WORKSPACE escaped
  /\ read_file Sample.WORKSPACE ascii_lower std_codecs Sample.mixed
       (lit "../workspace-evil/secret.txt") (lit "utf-8")
     = Ok (MsgContent (lit "../workspace-evil/secret.txt") 1
             (lit "hello secret")).
Proof.
  cbv zeta. split; [reflexivity|]. split; [|vm_compute; reflexivity].
  intros [rest H]. vm_compute in H. discriminate H.
Qed.

(** Every path below the workspace passes the check, so a statement
    about the paths [_safe_path] returns covers the confined ones. *)
Lemma startswith_app s t : startswith (s ++ t) s = true.
Proof.
  induction s as [|c s IH]; simpl; [reflexivity|].
  now rewrite N.eqb_refl, IH.
Qed.

Lemma startswith_str_within root p :
  within root p -> startswith (str p) (str root) = true.
Proof.
  intros [rest ->]. destruct root as [|r root].
  - destruct rest; reflexivity.
  - change (str ((r :: root) ++ rest))
      with (List.concat (map (fun x => SLASH :: x) ((r :: root) ++ rest))).
    change (str (r :: root))
      with (List.concat (map (fun x => SLASH :: x) (r :: root))).
    rewrite map_app, concat_app. apply startswith_app.
Qed.

Lemma safe_path_accepts_confined W s :
  lstat_error (parse_parts s) = None ->
  within (resolve W) (resolve (truediv W s)) ->
  _safe_path W s = Ok (resolve (truediv W s)).
Proof.
  intros Hl H. unfold _safe_path.
  now rewrite Hl, (startswith_str_within _ _ H).
Qed.

(** ** Writing without overwrite *)

(** C4: writing with [overwrite=False] to an accepted path at which a
    node exists returns the already-exists text and leaves the tree, and
    so the bytes of the file, as they were. *)
Theorem write_file_keeps_existing W fs file_path content path :
  _safe_path W file_path = Ok path ->
  exists_ fs path = true ->
  write_file W fs file_path content false = (Ok (MsgFileExists file_path), fs).
Proof.
  intros Hsafe Hex. unfold write_file.
  rewrite (try_safe_path_ok _ _ _ Hsafe), Hex. reflexivity.
Qed.

Lemma write_file_keeps_existing_witness :
  write_file Sample.WORKSPACE Sample.notes (lit "a.txt") (lit "new") false
  = (Ok (MsgFileExists (lit "a.txt")), Sample.notes).
Proof.
  apply (write_file_keeps_existing Sample.WORKSPACE Sample.notes
           (lit "a.txt") (lit "new") [lit "workspace"; lit "a.txt"]);
    reflexivity.
Defined.

(** ** The size a write reports *)

(** C6: a write should report the number of bytes written.  The code
    reports [len(content)], the number of characters: writing the one
    character U+AC00 puts three bytes in the file and reports a size
    of 1. *)
Theorem write_file_reports_characters :
  let written :=
    write_file Sample.WORKSPACE Sample.notes (lit "ga.txt") Sample.hangul_ga
      true in
  fst written = Ok (MsgSaved (lit "ga.txt") 1 1)
  /\ os_lookup (snd written) [lit "workspace"; lit "ga.txt"]
     = Some (File true [xea; xb0; x80])
  /\ utf8_encode Sample.hangul_ga = Some [xea; xb0; x80].
Proof. cbv zeta. repeat split; vm_compute; reflexivity. Qed.

(** ** Binary files *)

(** C7: a regular file whose suffix, lowered, is on the list of binary
    extensions is refused by [read_file] whatever its bytes, whether or
    not it can be opened, and whatever the encoding asked for: the file
    is neither opened nor decoded. *)
Theorem read_file_rejects_binary_suffix W lower codecs_lookup fs file_path
  encoding path openable data :
  _safe_path W file_path = Ok path ->
  os_lookup fs path = Some (File openable data) ->
  In (lower (suffix path)) binary_extensions ->
  read_file W lower codecs_lookup fs file_path encoding
  = Ok (MsgBinary file_path).
Proof.
  intros Hsafe Hnode Hbin. unfold read_file.
  rewrite (try_safe_path_ok _ _ _ Hsafe).
  rewrite (exists_lookup _ _ _ Hnode), (is_file_lookup _ _ _ _ Hnode).
  cbv beta iota delta [negb].
  destruct (in_dec pystr_eq_dec (lower (suffix path)) binary_extensions);
    [reflexivity | contradiction].
Qed.

Lemma read_file_rejects_binary_suffix_witness :
  read_file Sample.WORKSPACE ascii_lower std_codecs Sample.mixed
    (lit "image.png") (lit "no-such-codec")
  = Ok (MsgBinary (lit "image.png")).
Proof.
  apply (read_file_rejects_binary_suffix Sample.WORKSPACE ascii_lower
           std_codecs Sample.mixed (lit "image.png") (lit "no-such-codec")
           [lit "workspace"; lit "image.png"] true (Sample.text "hello")).
  - reflexivity.
  - reflexivity.
  - vm_compute. tauto.
Defined.

(** ** What a search goes through *)

Lemma node_induction (P : node -> Prop) :
  (forall openable data, P (File openable data)) ->
  (forall es, Forall (fun e => P (snd e)) es -> P (Dir es)) ->
  forall n, P n.
Proof.
  intros HF HD. fix IH 1. intros [openable data|es]; [apply HF|].
  apply HD. induction es as [|[nm c] es IHes]; constructor.
  - apply IH.
  - exact IHes.
Qed.

Lemma within_refl p : within p p.
Proof. exists []. now rewrite app_nil_r. Qed.

Lemma within_trans a b c : within a b -> within b c -> within a c.
Proof. intros [r ->] [s ->]. exists (r ++ s). now rewrite app_assoc. Qed.

Lemma within_snoc p nm : within p (p ++ [nm]).
Proof. now exists [nm]. Qed.

Lemma iterate_directories_within n :
  forall parent p, In p (_iterate_directories n parent) -> within parent p.
Proof.
  induction n as [openable data|es IH] using node_induction;
    intros parent p; simpl; [tauto|].
  intros [<-|H]; [apply within_refl|].
  induction IH as [|[nm c] es Hc _ IHes]; simpl in H; [tauto|].
  apply in_app_or in H. destruct H as [H|H]; [|now apply IHes].
  destruct (is_dir_node c); [|destruct H].
  apply (within_trans _ (parent ++ [nm])); [apply within_snoc|].
  now apply Hc.
Qed.

Lemma unseen_incl ps : forall yielded p, In p (unseen yielded ps) -> In p ps.
Proof.
  induction ps as [|q ps IH]; intros yielded p; simpl; [tauto|].
  destruct (in_dec path_eq_dec q yielded).
  - intros H. right. now apply (IH yielded).
  - intros [<-|H]; [now left|]. right. now apply (IH (q :: yielded)).
Qed.

Lemma select_from_within fnmatch fs sel :
  forall parent p, In p (_select_from fnmatch fs sel parent) -> within parent p.
Proof.
  induction sel as [|nm dironly sel IH|pat dironly sel IH|sel IH];
    intros parent p; simpl.
  - intros [<-|[]]. apply within_refl.
  - destruct (if dironly then _ else _); [|intros []].
    intros H. apply IH in H.
    eapply within_trans; [apply within_snoc | exact H].
  - destruct (os_lookup fs parent) as [[|es]|]; try (intros []).
    intros H. apply in_flat_map in H. destruct H as [e [_ H]].
    destruct (dironly && negb (is_dir_node (snd e)))%bool; [destruct H|].
    destruct (fnmatch pat (fst e)); [|destruct H].
    apply IH in H. eapply within_trans; [apply within_snoc | exact H].
  - intros H. apply unseen_incl in H. apply in_flat_map in H.
    destruct H as [start [Hstart H]]. apply IH in H.
    destruct (os_lookup fs parent) as [n|]; [|destruct Hstart].
    apply iterate_directories_within in Hstart.
    eapply within_trans; eassumption.
Qed.

Lemma rglob_within fnmatch fs self pattern files :
  rglob fnmatch fs self pattern = Ok files -> Forall (within self) files.
Proof.
  unfold rglob. destruct (isabs pattern); [discriminate|].
  destruct (_make_selector _) as [sel|e]; simpl; [|discriminate].
  intros H. inversion H; subst. apply Forall_forall. intros p Hp.
  unfold select_from in Hp. destruct (negb _); [destruct Hp|].
  now apply select_from_within in Hp.
Qed.

Lemma glob_within fnmatch fs self pattern files :
  glob fnmatch fs self pattern = Ok files -> Forall (within self) files.
Proof.
  unfold glob. destruct (pystr_eq_dec pattern []); [discriminate|].
  destruct (isabs pattern); [discriminate|].
  destruct (_make_selector _) as [sel|e]; simpl; [|discriminate].
  intros H. inversion H; subst. apply Forall_forall. intros p Hp.
  unfold select_from in Hp. destruct (negb _); [destruct Hp|].
  now apply select_from_within in Hp.
Qed.

Lemma relative_to_within base p rest :
  p = base ++ rest -> relative_to p base = Some rest.
Proof.
  intros ->. induction base as [|b base IH]; simpl; [reflexivity|].
  destruct (pystr_eq_dec b b); [exact IH | contradiction].
Qed.

Lemma relative_to_inv base : forall p rest,
  relative_to p base = Some rest -> p = base ++ rest.
Proof.
  induction base as [|b base IH]; intros p rest; simpl.
  - intros H; inversion H; reflexivity.
  - destruct p as [|x p]; [discriminate|].
    destruct (pystr_eq_dec b x); [|discriminate].
    intros H. apply IH in H. now subst.
Qed.

Lemma scan_lines_expected W lower keyword file_path relative lines :
  relative_to file_path W = Some relative ->
  forall i,
    scan_lines W lower keyword file_path i lines
    = Ok (map (fun il => Hit relative (fst il) (strip (snd il)))
            (filter (fun il => contains (lower keyword) (lower (snd il)))
                    (enumerate i lines))).
Proof.
  intros Hrel. induction lines as [|line lines IH]; intros i; simpl;
    [reflexivity|].
  destruct (contains (lower keyword) (lower line)); [|apply IH].
  rewrite Hrel, IH. reflexivity.
Qed.

Lemma search_loop_counts W lower codecs_lookup fs keyword decode files :
  codecs_lookup (lit "utf-8") = Some decode ->
  Forall (within W) files ->
  forall results n, exists results',
    search_loop W lower codecs_lookup fs keyword files results n
    = Ok (results', (n + length (filter (is_file fs) files))%nat).
Proof.
  intros Hcodec. induction 1 as [|f files [rest Hf] _ IH]; intros results n;
    simpl.
  - exists results. now rewrite Nat.add_0_r.
  - destruct (is_file fs f) eqn:Efile; simpl; [|apply IH].
    rewrite <- Nat.add_succ_comm.
    unfold read_text. unfold is_file in Efile.
    destruct (os_lookup fs f) as [[[|] data|es]|]; try discriminate;
      [|apply IH].
    rewrite Hcodec. destruct (decode data) as [text|]; [|apply IH].
    rewrite (scan_lines_expected W lower keyword f rest);
      [|now apply relative_to_within].
    simpl. apply IH.
Qed.






(** ** The order of a listing *)

Section LexOrder.

Variable A : Type.
Variable lt : A -> A -> bool.
Variable eq_dec : forall x y : A, {x = y} + {x <> y}.

Hypothesis lt_irrefl : forall x, lt x x = false.
Hypothesis lt_trans :
  forall x y z, lt x y = true -> lt y z = true -> lt x z = true.
Hypothesis lt_total : forall x y, lt x y = false -> lt y x = false -> x = y.

Lemma lex_lt_irrefl a : lex_lt A lt eq_dec a a = false.
Proof.
  induction a as [|x a IH]; simpl; [reflexivity|].
  rewrite lt_irrefl. destruct (eq_dec x x); [exact IH | reflexivity].
Qed.

Lemma lex_lt_trans a : forall b c,
  lex_lt A lt eq_dec a b = true -> lex_lt A lt eq_dec b c = true ->
  lex_lt A lt eq_dec a c = true.
Proof.
  induction a as [|x a IH]; intros [|y b] [|z c]; simpl;
    try discriminate; try reflexivity.
  intros Hab Hbc.
  apply orb_true_iff in Hab. apply orb_true_iff in Hbc.
  apply orb_true_iff.
  destruct Hab as [Hxy|Hab]; destruct Hbc as [Hyz|Hbc].
  - left. now apply (lt_trans x y z).
  - destruct (eq_dec y z) as [<-|]; [now left | discriminate].
  - destruct (eq_dec x y) as [->|]; [now left | discriminate].
  - destruct (eq_dec x y) as [->|]; [|discriminate].
    destruct (eq_dec y z) as [->|]; [|discriminate].
    right. destruct (eq_dec z z); [|contradiction].
    now apply (IH b c).
Qed.

Lemma lex_lt_total a : forall b,
  lex_lt A lt eq_dec a b = false -> lex_lt A lt eq_dec b a = false -> a = b.
Proof.
  induction a as [|x a IH]; intros [|y b]; simpl; try discriminate;
    [reflexivity|].
  intros Hab Hba.
  apply orb_false_iff in Hab. apply orb_false_iff in Hba.
  destruct Hab as [Hxy Hab], Hba as [Hyx Hba].
  assert (x = y) by now apply lt_total. subst y.
  destruct (eq_dec x x); [|contradiction].
  f_equal. now apply IH.
Qed.

End LexOrder.

Lemma str_lt_irrefl s : str_lt s s = false.
Proof. apply lex_lt_irrefl. apply N.ltb_irrefl. Qed.

Lemma str_lt_trans s t u :
  str_lt s t = true -> str_lt t u = true -> str_lt s u = true.
Proof.
  apply lex_lt_trans. intros x y z Hxy Hyz.
  apply N.ltb_lt in Hxy. apply N.ltb_lt in Hyz. apply N.ltb_lt. lia.
Qed.

Lemma str_lt_total s t : str_lt s t = false -> str_lt t s = false -> s = t.
Proof.
  apply lex_lt_total. intros x y Hxy Hyx.
  apply N.ltb_ge in Hxy. apply N.ltb_ge in Hyx. lia.
Qed.

Lemma path_lt_irrefl p : path_lt p p = false.
Proof. apply lex_lt_irrefl. apply str_lt_irrefl. Qed.

Lemma path_lt_trans p q r :
  path_lt p q = true -> path_lt q r = true -> path_lt p r = true.
Proof. apply lex_lt_trans. apply str_lt_trans. Qed.

Lemma path_lt_total p q : path_lt p q = false -> path_lt q p = false -> p = q.
Proof. apply lex_lt_total. apply str_lt_total. Qed.

Lemma path_lt_asym p q : path_lt p q = true -> path_lt q p = false.
Proof.
  intros H. destruct (path_lt q p) eqn:E; [|reflexivity].
  rewrite <- (path_lt_irrefl p). symmetry. now apply (path_lt_trans p q p).
Qed.

(** [c < x] failing and [c < y] give [x < y]. *)
Lemma path_le_lt_trans x c y :
  path_lt c x = false -> path_lt c y = true -> path_lt x y = true.
Proof.
  intros Hcx Hcy. destruct (path_lt x c) eqn:Exc.
  - now apply (path_lt_trans x c y).
  - now rewrite (path_lt_total x c Exc Hcx).
Qed.

Lemma insert_perm x l : Permutation (insert x l) (x :: l).
Proof.
  induction l as [|y l IH]; simpl; [reflexivity|].
  destruct (path_lt y x); [|reflexivity].
  rewrite IH. apply perm_swap.
Qed.

Lemma sorted_perm l : Permutation (sorted l) l.
Proof.
  induction l as [|x l IH]; simpl; [reflexivity|].
  rewrite insert_perm. now constructor.
Qed.

Lemma insert_hdrel a x l :
  path_le a x -> HdRel path_le a l -> HdRel path_le a (insert x l).
Proof.
  intros Hax Hal. destruct l as [|y l]; simpl; [now constructor|].
  destruct (path_lt y x); constructor; [|assumption].
  now inversion Hal.
Qed.

Lemma insert_sorted x l : Sorted path_le l -> Sorted path_le (insert x l).
Proof.
  induction 1 as [|y l Hl IH Hy]; simpl; [repeat constructor|].
  destruct (path_lt y x) eqn:E.
  - constructor; [exact IH|]. apply insert_hdrel; [|exact Hy].
    unfold path_le. now apply path_lt_asym.
  - constructor; [now constructor|]. constructor. exact E.
Qed.

Lemma sorted_sorted l : Sorted path_le (sorted l).
Proof.
  induction l as [|x l IH]; simpl; [constructor|]. now apply insert_sorted.
Qed.

Lemma insert_insert x y l : insert x (insert y l) = insert y (insert x l).
Proof.
  induction l as [|c l IH]; simpl.
  - destruct (path_lt y x) eqn:Eyx, (path_lt x y) eqn:Exy; try reflexivity.
    + rewrite (path_lt_asym _ _ Eyx) in Exy. discriminate.
    + now rewrite (path_lt_total x y Exy Eyx).
  - destruct (path_lt c y) eqn:Ecy, (path_lt c x) eqn:Ecx; simpl;
      rewrite ?Ecy, ?Ecx.
    + now rewrite IH.
    + now rewrite (path_le_lt_trans x c y Ecx Ecy).
    + now rewrite (path_le_lt_trans y c x Ecy Ecx).
    + destruct (path_lt y x) eqn:Eyx, (path_lt x y) eqn:Exy; try reflexivity.
      * rewrite (path_lt_asym _ _ Eyx) in Exy. discriminate.
      * now rewrite (path_lt_total x y Exy Eyx).
Qed.

(** The sorted list depends on the items, not on the order in which
    the directory gives them. *)
Lemma sorted_order_independent l l' :
  Permutation l l' -> sorted l = sorted l'.
Proof.
  induction 1 as [|x l l' _ IH|x y l|l l' l'' _ IH1 _ IH2]; simpl.
  - reflexivity.
  - now rewrite IH.
  - apply insert_insert.
  - now rewrite IH1.
Qed.

(** ** Listing a directory *)

Lemma split_no_separator c s : has_char c s = false -> split c s = [s].
Proof.
  unfold has_char. induction s as [|x s IH]; simpl; [reflexivity|].
  intros H. apply orb_false_iff in H. destruct H as [Hx Hs].
  rewrite N.eqb_sym, Hx, (IH Hs). reflexivity.
Qed.

Lemma isabs_no_separator s : has_char SLASH s = false -> isabs s = false.
Proof.
  destruct s as [|x s]; simpl; [reflexivity|]. intros H.
  apply orb_false_iff in H. rewrite N.eqb_sym. apply H.
Qed.

Lemma last_no_separator s :
  has_char SLASH s = false -> (last s 0 =? SLASH) = false.
Proof.
  unfold has_char. induction s as [|x s IH]; [reflexivity|].
  intros H. simpl in H. apply orb_false_iff in H. destruct H as [Hx Hs].
  destruct s as [|y s]; [simpl; now rewrite N.eqb_sym|].
  change (last (x :: y :: s) 0) with (last (y :: s) 0). now apply IH.
Qed.

Lemma pattern_parts_one pattern :
  one_part_pattern pattern -> pattern_parts pattern = [pattern].
Proof.
  intros (Hne & Hsep & _ & Hdot & _). unfold pattern_parts, parse_parts.
  rewrite (split_no_separator _ _ Hsep), (last_no_separator _ Hsep).
  simpl. destruct (pystr_eq_dec pattern []); [contradiction|].
  destruct (pystr_eq_dec pattern (lit ".")); [contradiction|]. reflexivity.
Qed.

Lemma make_selector_one pattern :
  one_part_pattern pattern ->
  _make_selector [pattern]
  = Ok (if _is_wildcard_pattern pattern
        then Wildcard pattern false Terminating
        else Precise pattern false Terminating).
Proof.
  intros (Hne & _ & Hstars & _). simpl.
  destruct (pystr_eq_dec pattern []); [contradiction|].
  destruct (pystr_eq_dec pattern (lit "**")) as [->|_]; [discriminate|].
  rewrite Hstars. now destruct (_is_wildcard_pattern pattern).
Qed.

Lemma canonical_snoc p nm :
  canonical p -> nm <> dotdot -> canonical (p ++ [nm]).
Proof.
  intros Hp Hnm. apply Forall_app. split; [exact Hp|]. now repeat constructor.
Qed.

Lemma lookup_child fs target es nm :
  canonical target -> nm <> dotdot ->
  os_lookup fs target = Some (Dir es) ->
  os_lookup fs (target ++ [nm]) = assoc nm es.
Proof.
  intros Hc Hnm Hdir.
  rewrite os_lookup_canonical in Hdir by exact Hc.
  rewrite os_lookup_canonical by now apply canonical_snoc.
  rewrite find_node_app, Hdir. simpl. now destruct (assoc nm es).
Qed.

Lemma assoc_in es nm c :
  NoDup (map fst es) -> In (nm, c) es -> assoc nm es = Some c.
Proof.
  induction es as [|[k d] es IH]; simpl; [tauto|].
  intros Hnd [Heq|Hin]; inversion Hnd as [|? ? Hk Hrest]; subst.
  - inversion Heq; subst. now destruct (pystr_eq_dec nm nm).
  - destruct (pystr_eq_dec k nm) as [->|_]; [|now apply IH].
    exfalso. apply Hk. now apply (in_map fst _ (nm, c)).
Qed.

Lemma assoc_none_filter (f : pystr -> bool) (es : list (pystr * node)) :
  (forall e, In e es -> f (fst e) = false) ->
  filter (fun e => f (fst e)) es = [].
Proof.
  induction es as [|e es IH]; simpl; [reflexivity|]. intros H.
  rewrite (H e) by now left. apply IH. intros e' He'. apply H. now right.
Qed.

Lemma filter_by_name pattern es :
  NoDup (map fst es) ->
  filter (fun e => if pystr_eq_dec pattern (fst e) then true else false) es
  = match assoc pattern es with
    | Some c => [(pattern, c)]
    | None => []
    end.
Proof.
  induction es as [|[k d] es IH]; simpl; [reflexivity|].
  intros Hnd. inversion Hnd as [|? ? Hk Hrest]; subst.
  destruct (pystr_eq_dec pattern k) as [->|Hne].
  - destruct (pystr_eq_dec k k) as [_|]; [|contradiction]. f_equal.
    apply (assoc_none_filter
             (fun nm => if pystr_eq_dec k nm then true else false)).
    intros e He. destruct (pystr_eq_dec k (fst e)) as [->|]; [|reflexivity].
    exfalso. apply Hk. now apply in_map.
  - destruct (pystr_eq_dec k pattern) as [->|]; [contradiction|].
    now apply IH.
Qed.

Lemma flat_map_select (f : pystr -> bool) (target : Path)
  (es : list (pystr * node)) :
  flat_map (fun e => if (false && negb (is_dir_node (snd e)))%bool then []
                     else if f (fst e) then [target ++ [fst e]] else []) es
  = map (fun e => target ++ [fst e]) (filter (fun e => f (fst e)) es).
Proof.
  induction es as [|e es IH]; simpl in *; [reflexivity|].
  destruct (f (fst e)); simpl; now rewrite IH.
Qed.

(** What [glob] yields for a pattern of one part. *)
Lemma glob_one_part fnmatch fs target es pattern :
  canonical target ->
  os_lookup fs target = Some (Dir es) ->
  wf_entries es ->
  one_part_pattern pattern ->
  glob fnmatch fs target pattern
  = Ok (matching_children fnmatch target pattern es).
Proof.
  intros Hc Hdir [Hnd Hdd] Hpat. unfold glob.
  destruct Hpat as (Hne & Hsep & Hstars & Hdot & Hdotdot).
  assert (Hpat : one_part_pattern pattern) by (repeat split; assumption).
  destruct (pystr_eq_dec pattern []); [contradiction|].
  rewrite (isabs_no_separator _ Hsep), (pattern_parts_one _ Hpat),
    (make_selector_one _ Hpat).
  unfold bind, select_from. rewrite (is_dir_lookup _ _ _ Hdir).
  cbv beta iota delta [negb]. f_equal.
  unfold matching_children, name_matches.
  destruct (_is_wildcard_pattern pattern); simpl.
  - rewrite Hdir. apply flat_map_select.
  - rewrite filter_by_name by exact Hnd. unfold exists_.
    rewrite (lookup_child fs target es pattern Hc Hdotdot Hdir).
    now destruct (assoc pattern es).
Qed.

Lemma last_snoc (p : Path) nm : name (p ++ [nm]) = nm.
Proof. unfold name. apply last_last. Qed.

Lemma list_item_child W fs target relative es nm c :
  canonical target -> target = W ++ relative ->
  os_lookup fs target = Some (Dir es) ->
  wf_entries es -> In (nm, c) es ->
  list_item W fs (target ++ [nm])
  = Ok (listing_line relative es (target ++ [nm])).
Proof.
  intros Hc Hrel Hdir [Hnd Hdd] Hin.
  assert (Hnm : nm <> dotdot).
  { intros ->. apply Hdd. now apply (in_map fst _ (dotdot, c)). }
  unfold list_item, listing_line.
  rewrite (relative_to_within W (target ++ [nm]) (relative ++ [nm]))
    by (subst target; now rewrite app_assoc).
  rewrite last_snoc. unfold is_dir.
  rewrite (lookup_child fs target es nm Hc Hnm Hdir),
    (assoc_in es nm c Hnd Hin).
  now destruct c.
Qed.

Lemma list_items_children W fs target relative es items :
  canonical target -> target = W ++ relative ->
  os_lookup fs target = Some (Dir es) ->
  wf_entries es ->
  Forall (fun item => exists nm c, In (nm, c) es /\ item = target ++ [nm])
         items ->
  list_items W fs items = Ok (map (listing_line relative es) items).
Proof.
  intros Hc Hrel Hdir Hwf. induction 1 as [|item items Hitem _ IH]; simpl;
    [reflexivity|].
  destruct Hitem as (nm & c & Hin & ->).
  rewrite (list_item_child W fs target relative es nm c Hc Hrel Hdir Hwf Hin).
  simpl. rewrite IH. reflexivity.
Qed.

Lemma matching_children_entries fnmatch target pattern es :
  Forall (fun item => exists nm c, In (nm, c) es /\ item = target ++ [nm])
         (matching_children fnmatch target pattern es).
Proof.
  apply Forall_forall. intros item Hitem. unfold matching_children in Hitem.
  apply in_map_iff in Hitem. destruct Hitem as ([nm c] & <- & Hin).
  apply filter_In in Hin. exists nm, c. now split.
Qed.

(** C8 (amended): for a directory argument that resolves below the workspace,
    [list_files] returns the missing-directory text when the resolved
    path is one the host can look up (no name over 255 bytes, less than
    4096 bytes in all) and does not exist, and the not-a-directory text
    when it is a regular file, whatever the pattern.  On a directory and
    a pattern of one part, which has a wildcard character or else names
    a path the host can look up, it lists the entries the pattern
    selects, each once, in the order of their paths; that order does not
    depend on the order in which the host enumerates the directory, so
    two calls on the same tree list the same entries in the same order.
    When the pattern selects nothing the result is the no-match text,
    not a failure. *)
Theorem list_files_spec W fnmatch fs directory pattern target relative :
  _safe_path W directory = Ok target ->
  target = W ++ relative ->
  (host_path target = true ->
   os_lookup fs target = None ->
   list_files W fnmatch fs directory pattern
   = Ok (MsgDirectoryMissing directory))
  /\ (forall openable data,
        os_lookup fs target = Some (File openable data) ->
        list_files W fnmatch fs directory pattern
        = Ok (MsgNotADirectory directory))
  /\ (forall es,
        os_lookup fs target = Some (Dir es) ->
        wf_entries es ->
        one_part_pattern pattern ->
        _is_wildcard_pattern pattern = true
        \/ host_path (target ++ [pattern]) = true ->
        let found := matching_children fnmatch target pattern es in
        let items := sorted found in
        glob fnmatch fs target pattern = Ok found
        /\ Sorted path_le items
        /\ Permutation items found
        /\ (forall found', Permutation found found' -> sorted found' = items)
        /\ list_files W fnmatch fs directory pattern
           = Ok (match items with
                 | [] => MsgNoMatch directory pattern
                 | _ :: _ =>
                     MsgListing directory pattern
                       (map (listing_line relative es) items) (length items)
                 end)).
Proof.
  intros Hsafe Hrel. pose proof (safe_path_canonical _ _ _ Hsafe) as Hc.
  split; [|split].
  - intros _ Hnone. unfold list_files.
    rewrite (try_safe_path_ok _ _ _ Hsafe), (exists_missing _ _ Hnone).
    reflexivity.
  - intros openable data Hfile. unfold list_files.
    rewrite (try_safe_path_ok _ _ _ Hsafe), (exists_lookup _ _ _ Hfile),
      (is_dir_file _ _ _ _ Hfile).
    reflexivity.
  - intros es Hdir Hwf Hpat _ found items.
    pose proof (glob_one_part fnmatch fs target es pattern Hc Hdir Hwf Hpat)
      as Hglob.
    split; [exact Hglob|]. split; [apply sorted_sorted|].
    split; [apply sorted_perm|].
    split; [intros found' Hperm; symmetry;
            now apply sorted_order_independent|].
    unfold list_files.
    rewrite (try_safe_path_ok _ _ _ Hsafe), (exists_lookup _ _ _ Hdir),
      (is_dir_lookup _ _ _ Hdir), Hglob.
    cbv beta iota delta [negb bind]. fold found. fold items.
    assert (Hitems : list_items W fs items
                     = Ok (map (listing_line relative es) items)).
    { apply (list_items_children W fs target relative es items Hc Hrel Hdir
               Hwf).
      apply (Permutation_Forall (x := found)).
      - symmetry. apply sorted_perm.
      - apply matching_children_entries. }
    destruct items as [|item items']; [reflexivity|].
    rewrite Hitems. reflexivity.
Qed.

Lemma list_files_spec_witness :
  list_files Sample.WORKSPACE fnmatch_simple Sample.mixed [] (lit "*.txt")
  = Ok (MsgListing [] (lit "*.txt")
          [EntryFile [lit "a.txt"] (Size_B 5);
           EntryFile [lit "raw.txt"] (Size_B 2)] 2).
Proof.
  refine (proj2 (proj2 (proj2 (proj2
    (proj2 (proj2
      (list_files_spec Sample.WORKSPACE fnmatch_simple Sample.mixed []
         (lit "*.txt") [lit "workspace"] [] _ _))
      [(lit "sub", Dir [(lit "locked.txt", File false (Sample.text "hello"))]);
       (lit "image.png", File true (Sample.text "hello"));
       (lit "a.txt", File true (Sample.text "hello"));
       (lit "raw.txt", File true [xff; xfe])] _ _ _ _))))).
  - reflexivity.
  - reflexivity.
  - reflexivity.
  - split.
    + repeat constructor; simpl; intuition discriminate.
    + simpl. intuition discriminate.
  - repeat split; try reflexivity; discriminate.
  - left. reflexivity.
Defined.

(** ** UTF-8 *)

(** The decoder on a well-formed sequence of one to four units, the
    units being given by their bounds. *)
Lemma decode_units_1 b0 rest :
  b0 < 128 ->
  decode_units (b0 :: rest) = option_map (cons b0) (decode_units rest).
Proof.
  intros H. cbn [decode_units].
  destruct (b0 <? 128) eqn:E; [reflexivity|]. cmp_to_prop. lia.
Qed.

Lemma decode_units_2 b0 b1 c rest :
  192 <= b0 < 224 -> 128 <= b1 < 192 ->
  c = (b0 - 192) * 64 + (b1 - 128) -> 128 <= c ->
  decode_units (b0 :: b1 :: rest) = option_map (cons c) (decode_units rest).
Proof.
  intros H0 H1 -> Hc. cbn [decode_units]. unfold is_cont.
  repeat match goal with
         | |- context [if ?b then _ else _] =>
             destruct b eqn:?; cmp_to_prop; try lia
         end.
  all: reflexivity.
Qed.

Lemma decode_units_3 b0 b1 b2 c rest :
  224 <= b0 < 240 -> 128 <= b1 < 192 -> 128 <= b2 < 192 ->
  c = (b0 - 224) * 4096 + (b1 - 128) * 64 + (b2 - 128) ->
  2048 <= c -> is_surrogate c = false ->
  decode_units (b0 :: b1 :: b2 :: rest)
  = option_map (cons c) (decode_units rest).
Proof.
  intros H0 H1 H2 -> Hc Hs. cbn [decode_units]. rewrite Hs. unfold is_cont.
  repeat match goal with
         | |- context [if ?b then _ else _] =>
             destruct b eqn:?; cmp_to_prop; try lia; try discriminate
         end.
  all: reflexivity.
Qed.

Lemma decode_units_4 b0 b1 b2 b3 c rest :
  240 <= b0 < 248 -> 128 <= b1 < 192 -> 128 <= b2 < 192 -> 128 <= b3 < 192 ->
  c = (b0 - 240) * 262144 + (b1 - 128) * 4096 + (b2 - 128) * 64 + (b3 - 128) ->
  65536 <= c < 1114112 ->
  decode_units (b0 :: b1 :: b2 :: b3 :: rest)
  = option_map (cons c) (decode_units rest).
Proof.
  intros H0 H1 H2 H3 -> Hc. cbn [decode_units]. unfold is_cont.
  repeat match goal with
         | |- context [if ?b then _ else _] =>
             destruct b eqn:?; cmp_to_prop; try lia
         end.
  all: reflexivity.
Qed.

Lemma decode_encode_char c rest :
  match encode_char c with
  | Some u =>
      decode_units (u ++ rest) = option_map (cons c) (decode_units rest)
  | None => True
  end.
Proof.
  unfold encode_char.
  destruct (c <? 128) eqn:E1; cbv beta iota.
  { cmp_to_prop. now apply decode_units_1. }
  destruct (c <? 2048) eqn:E2; cbv beta iota.
  { cmp_to_prop. apply decode_units_2; nlia. }
  destruct (c <? 65536) eqn:E3; cbv beta iota.
  { destruct ((55296 <=? c) && (c <=? 57343))%bool eqn:E4; [exact I|].
    cbv beta iota. apply N.ltb_ge in E1, E2. apply N.ltb_lt in E3.
    apply decode_units_3; try nlia. exact E4. }
  destruct (c <? 1114112) eqn:E5; [|exact I]. cbv beta iota.
  cmp_to_prop. apply decode_units_4; nlia.
Qed.

Lemma decode_encode_units s : forall us,
  encode_units s = Some us -> decode_units us = Some s.
Proof.
  induction s as [|c s IH]; intros us; simpl.
  - intros H. inversion H. reflexivity.
  - destruct (encode_char c) as [u|] eqn:Ec; [|discriminate].
    destruct (encode_units s) as [v|]; [|discriminate].
    intros H. inversion H; subst.
    pose proof (decode_encode_char c v) as Hc. rewrite Ec in Hc.
    rewrite Hc, (IH v eq_refl). reflexivity.
Qed.

Lemma encode_char_bytes c :
  match encode_char c with
  | Some u => Forall (fun b => b < 256) u
  | None => True
  end.
Proof.
  unfold encode_char.
  repeat match goal with
         | |- context [if ?b then _ else _] => destruct b eqn:?
         end;
    cbv beta iota; try exact I; cmp_to_prop;
    repeat (apply Forall_cons; [nlia|]); apply Forall_nil.
Qed.

Lemma encode_units_bytes s : forall us,
  encode_units s = Some us -> Forall (fun b => b < 256) us.
Proof.
  induction s as [|c s IH]; intros us; simpl.
  - intros H. inversion H. constructor.
  - pose proof (encode_char_bytes c) as Hc.
    destruct (encode_char c) as [u|]; [|discriminate].
    destruct (encode_units s) as [v|]; [|discriminate].
    intros H. inversion H; subst. apply Forall_app. split.
    + exact Hc.
    + now apply IH.
Qed.

Lemma to_N_byte_of_N n : n < 256 -> Byte.to_N (byte_of_N n) = n.
Proof.
  intros Hn. unfold byte_of_N. destruct (Byte.of_N n) as [b|] eqn:E.
  - now apply Byte.to_of_N.
  - apply Byte.of_N_None_iff in E. lia.
Qed.

Lemma to_N_byte_of_N_all us :
  Forall (fun b => b < 256) us -> map Byte.to_N (map byte_of_N us) = us.
Proof.
  induction 1 as [|u us Hu _ IH]; simpl; [reflexivity|].
  now rewrite to_N_byte_of_N, IH.
Qed.

(** Decoding what UTF-8 encoding produced gives the text back. *)
Lemma utf8_decode_encode s b :
  utf8_encode s = Some b -> utf8_decode b = Some s.
Proof.
  unfold utf8_encode, utf8_decode.
  destruct (encode_units s) as [us|] eqn:E; simpl; [|discriminate].
  intros H. inversion H; subst.
  rewrite to_N_byte_of_N_all by now apply (encode_units_bytes s).
  now apply decode_encode_units.
Qed.

Lemma universal_newlines_no_cr s :
  has_char CR s = false -> universal_newlines s = s.
Proof.
  unfold has_char. induction s as [|c s IH]; [reflexivity|].
  intros H. cbn [existsb] in H. apply orb_false_iff in H.
  destruct H as [Hc Hs]. cbn [universal_newlines].
  rewrite N.eqb_sym, Hc, (IH Hs). reflexivity.
Qed.

(** ** Writing, then reading *)

Lemma assoc_set_child nm c es : assoc nm (set_child nm c es) = Some c.
Proof.
  induction es as [|[k d] es IH]; simpl.
  - now destruct (pystr_eq_dec nm nm).
  - destruct (pystr_eq_dec k nm) as [->|Hne]; simpl.
    + now destruct (pystr_eq_dec nm nm).
    + now destruct (pystr_eq_dec k nm).
Qed.

Lemma assoc_app_new nm c es :
  assoc nm es = None -> assoc nm (es ++ [(nm, c)]) = Some c.
Proof.
  induction es as [|[k d] es IH]; simpl.
  - now destruct (pystr_eq_dec nm nm).
  - destruct (pystr_eq_dec k nm); [discriminate | exact IH].
Qed.

(** After a successful [open_write] the path names an openable regular
    file with the bytes written. *)
Lemma open_write_find p : forall n data n',
  open_write n p data = Ok n' -> find_node n' p = Some (File true data).
Proof.
  induction p as [|nm rest IH]; intros n data n'; simpl.
  - destruct n as [[|] old|es]; try discriminate.
    intros H. now inversion H.
  - destruct n as [|es]; [discriminate|].
    destruct (assoc nm es) as [c|] eqn:Ec.
    + destruct (open_write c rest data) as [c'|e] eqn:Ew; simpl;
        [|discriminate].
      intros H. inversion H; subst. simpl.
      rewrite assoc_set_child. now apply (IH c).
    + destruct rest; [|discriminate]. intros H. inversion H; subst. simpl.
      now rewrite (assoc_app_new nm _ es Ec).
Qed.

Lemma write_text_ok fs p content k fs' :
  write_text fs p content = (Ok k, fs') ->
  exists b, utf8_encode content = Some b
            /\ find_node fs' p = Some (File true b).
Proof.
  unfold write_text. destruct (utf8_encode content) as [b|].
  - destruct (open_write fs p b) as [fs1|e] eqn:Ew; [|discriminate].
    intros H. inversion H; subst. exists b. split; [reflexivity|].
    now apply (open_write_find p fs).
  - destruct (open_write fs p []); discriminate.
Qed.

(** C3 (amended): for a path the check accepts whose suffix is not on the
    list of binary extensions, and a text without carriage return, a
    successful [write_file] with [overwrite=True] followed by a
    [read_file] in UTF-8 returns the text as it was written, with a line
    count of its line feeds plus 1. *)
Theorem write_then_read W lower codecs_lookup fs file_path content path m fs' :
  codecs_lookup (lit "utf-8") = Some utf8_decode ->
  _safe_path W file_path = Ok path ->
  ~ In (lower (suffix path)) binary_extensions ->
  has_char CR content = false ->
  write_file W fs file_path content true = (Ok m, fs') ->
  read_file W lower codecs_lookup fs' file_path (lit "utf-8")
  = Ok (MsgContent file_path (count LF content + 1) content).
Proof.
  intros Hcodec Hsafe Hsuffix Hcr Hwrite.
  pose proof (safe_path_canonical _ _ _ Hsafe) as Hc.
  unfold write_file in Hwrite.
  rewrite (try_safe_path_ok _ _ _ Hsafe), andb_false_r in Hwrite.
  destruct (mkdir_parents fs (parent path)) as [fs1|e]; [|discriminate].
  destruct (write_text fs1 path content) as [[k|e] fs2] eqn:Ew;
    [|discriminate].
  inversion Hwrite; subst fs2. clear Hwrite.
  apply write_text_ok in Ew. destruct Ew as (b & Henc & Hfind).
  rewrite <- os_lookup_canonical in Hfind by exact Hc.
  unfold read_file.
  rewrite (try_safe_path_ok _ _ _ Hsafe), (exists_lookup _ _ _ Hfind),
    (is_file_lookup _ _ _ _ Hfind).
  cbv beta iota delta [negb].
  destruct (in_dec pystr_eq_dec (lower (suffix path)) binary_extensions);
    [contradiction|].
  unfold read_text.
  rewrite Hfind, Hcodec, (utf8_decode_encode _ _ Henc),
    (universal_newlines_no_cr _ Hcr).
  reflexivity.
Qed.

Lemma write_then_read_witness :
  read_file Sample.WORKSPACE ascii_lower std_codecs Sample.notes_ga
    (lit "new/ga.txt") (lit "utf-8")
  = Ok (MsgContent (lit "new/ga.txt") 2 Sample.ga_text).
Proof.
  apply (write_then_read Sample.WORKSPACE ascii_lower std_codecs Sample.notes
           (lit "new/ga.txt") Sample.ga_text
           [lit "workspace"; lit "new"; lit "ga.txt"]
           (MsgSaved (lit "new/ga.txt") 5 2) Sample.notes_ga).
  - reflexivity.
  - reflexivity.
  - vm_compute. intuition discriminate.
  - reflexivity.
  - vm_compute. reflexivity.
Defined.

(** A write that succeeds and is not read back as written: to a name
    with a binary extension, and of a text with a carriage return. *)
Lemma write_then_read_differs :
  (let written :=
     write_file Sample.WORKSPACE Sample.notes (lit "pic.png") (lit "hello")
       true in
   fst written = Ok (MsgSaved (lit "pic.png") 5 1)
   /\ read_file Sample.WORKSPACE ascii_lower std_codecs (snd written)
        (lit "pic.png") (lit "utf-8") = Ok (MsgBinary (lit "pic.png")))
  /\ (let written :=
        write_file Sample.WORKSPACE Sample.notes (lit "mac.txt")
          (lit "a" ++ [CR] ++ lit "b") true in
      fst written = Ok (MsgSaved (lit "mac.txt") 3 1)
      /\ read_file Sample.WORKSPACE ascii_lower std_codecs (snd written)
           (lit "mac.txt") (lit "utf-8")
         = Ok (MsgContent (lit "mac.txt") 2 (lit "a" ++ [LF] ++ lit "b"))).
Proof. cbv zeta. repeat split; vm_compute; reflexivity. Qed.

(** ** The outcomes of the guarded path check *)

Lemma try_safe_path_cases W s :
  (exists p, _safe_path W s = Ok p /\ try_safe_path W s = inr p)
  \/ (exists e, _safe_path W s = Raise e
                /\ try_safe_path W s = inl (Ok (StrOfException e))).
Proof.
  destruct (_safe_path W s) as [p|e] eqn:E.
  - left. exists p. split; [reflexivity|]. now apply try_safe_path_ok.
  - right. exists e. split; [reflexivity|]. now apply try_safe_path_raise.
Qed.

Lemma is_file_exists fs p : is_file fs p = true -> exists_ fs p = true.
Proof. unfold is_file, exists_. now destruct (os_lookup fs p) as [[|]|]. Qed.

(** Patterns for which a listing is not of entries of the directory:
    the empty pattern and [.] raise, [..] lists the parent, [**] lists
    the directory itself and those below it, a pattern of two parts
    lists entries of another directory, inside the workspace or not. *)
Lemma list_files_beyond_entries :
  let ls := list_files Sample.WORKSPACE fnmatch_simple Sample.mixed [] in
  ls [] = Raise ValueError_unacceptable_pattern
  /\ ls (lit ".") = Raise IndexError
  /\ ls (lit "..") = Ok (MsgListing [] (lit "..") [EntryDir [lit ".."]] 1)
  /\ ls (lit "**")
     = Ok (MsgListing [] (lit "**") [EntryDir []; EntryDir [lit "sub"]] 2)
  /\ ls (lit "sub/*")
     = Ok (MsgListing [] (lit "sub/*")
             [EntryFile [lit "sub"; lit "locked.txt"] (Size_B 5)] 1)
  /\ ls (lit "../*")
     = Ok (MsgListing [] (lit "../*")
             [EntryDir [lit ".."; lit "workspace"];
              EntryDir [lit ".."; lit "workspace-evil"]] 2).
Proof. cbv zeta. repeat split; vm_compute; reflexivity. Qed.

(** * Further properties of the tools *)

(** ** How a write and a directory creation change the tree *)

Lemma assoc_set_child_other k nm c es :
  k <> nm -> assoc k (set_child nm c es) = assoc k es.
Proof.
  intros Hne. induction es as [|[j d] es IH]; simpl.
  - destruct (pystr_eq_dec nm k); [now subst|reflexivity].
  - destruct (pystr_eq_dec j nm) as [->|Hj]; simpl.
    + destruct (pystr_eq_dec nm k); [now subst|reflexivity].
    + destruct (pystr_eq_dec j k); [reflexivity | exact IH].
Qed.

Lemma assoc_app_other k nm c es :
  k <> nm -> assoc k (es ++ [(nm, c)]) = assoc k es.
Proof.
  intros Hne. induction es as [|[j d] es IH]; simpl.
  - destruct (pystr_eq_dec nm k); [now subst|reflexivity].
  - destruct (pystr_eq_dec j k); [reflexivity | exact IH].
Qed.

Lemma set_child_same nm c es :
  assoc nm es = Some c -> set_child nm c es = es.
Proof.
  induction es as [|[j d] es IH]; simpl; [discriminate|].
  destruct (pystr_eq_dec j nm) as [->|Hj].
  - intros H. now inversion H.
  - intros H. now rewrite IH.
Qed.

Lemma find_fresh_dirs p : find_node (fresh_dirs p) p = Some (Dir []).
Proof.
  induction p as [|nm p IH]; simpl; [reflexivity|].
  now destruct (pystr_eq_dec nm nm).
Qed.

(** The node a prefix of an existing path names is a directory, unless
    the prefix is the whole path. *)
Lemma find_node_prefix n q r x :
  find_node n (q ++ r) = Some x ->
  exists m, find_node n q = Some m
            /\ (r <> [] -> exists es, m = Dir es).
Proof.
  rewrite find_node_app. destruct (find_node n q) as [m|]; [|discriminate].
  intros H. exists m. split; [reflexivity|]. intros Hr.
  destruct r as [|nm r]; [contradiction|].
  destruct m as [|es]; [discriminate|]. now exists es.
Qed.

Lemma kept_refl n q : kept n n q.
Proof.
  unfold kept. destruct (find_node n q) as [[|es]|]; eauto.
Qed.

Lemma kept_trans n1 n2 n3 q : kept n1 n2 q -> kept n2 n3 q -> kept n1 n3 q.
Proof.
  unfold kept. destruct (find_node n1 q) as [[o d|es]|]; [| |trivial].
  - now intros ->.
  - now intros [es' ->].
Qed.

Lemma kept_child nm es es' c c' q :
  assoc nm es = Some c -> assoc nm es' = Some c' ->
  kept c c' q -> kept (Dir es) (Dir es') (nm :: q).
Proof. unfold kept. simpl. now intros -> ->. Qed.

Lemma kept_other k es es' q :
  assoc k es' = assoc k es -> kept (Dir es) (Dir es') (k :: q).
Proof.
  unfold kept. simpl. intros ->.
  destruct (assoc k es) as [c|]; [|trivial].
  destruct (find_node c q) as [[|]|]; eauto.
Qed.

Lemma kept_root es es' : kept (Dir es) (Dir es') [].
Proof. unfold kept. simpl. eauto. Qed.

(** [mkdir] keeps every file and every directory. *)
Lemma mkdir_parents_kept p : forall n n' q,
  mkdir_parents n p = Ok n' -> kept n n' q.
Proof.
  induction p as [|nm rest IH]; intros n n' q; simpl.
  - destruct n; [discriminate|]. intros H. inversion H. apply kept_refl.
  - destruct n as [|es]; [discriminate|].
    destruct (assoc nm es) as [c|] eqn:Ec.
    + destruct (mkdir_parents c rest) as [c'|e] eqn:Em; simpl; [|discriminate].
      intros H. inversion H; subst. destruct q as [|k q]; [apply kept_root|].
      destruct (pystr_eq_dec k nm) as [->|Hk].
      * apply (kept_child nm es _ c c'); [exact Ec|apply assoc_set_child|].
        now apply IH.
      * apply kept_other. now apply assoc_set_child_other.
    + intros H. inversion H; subst. destruct q as [|k q]; [apply kept_root|].
      destruct (pystr_eq_dec k nm) as [->|Hk].
      * unfold kept. simpl. now rewrite Ec.
      * apply kept_other. now apply assoc_app_other.
Qed.

(** Opening a file for writing keeps every other file and every
    directory. *)
Lemma open_write_kept p : forall n data n' q,
  open_write n p data = Ok n' -> q <> p -> kept n n' q.
Proof.
  induction p as [|nm rest IH]; intros n data n' q; simpl.
  - destruct n as [[|] old|es]; try discriminate.
    intros _ Hq. unfold kept. destruct q; [contradiction|reflexivity].
  - destruct n as [|es]; [discriminate|].
    destruct (assoc nm es) as [c|] eqn:Ec.
    + destruct (open_write c rest data) as [c'|e] eqn:Ew; simpl;
        [|discriminate].
      intros H Hq. inversion H; subst.
      destruct q as [|k q]; [apply kept_root|].
      destruct (pystr_eq_dec k nm) as [->|Hk].
      * apply (kept_child nm es _ c c'); [exact Ec|apply assoc_set_child|].
        apply (IH c data); [exact Ew|]. intros ->. now apply Hq.
      * apply kept_other. now apply assoc_set_child_other.
    + destruct rest; [|discriminate]. intros H Hq. inversion H; subst.
      destruct q as [|k q]; [apply kept_root|].
      destruct (pystr_eq_dec k nm) as [->|Hk].
      * unfold kept. simpl. now rewrite Ec.
      * apply kept_other. now apply assoc_app_other.
Qed.

Lemma mkdir_parents_existing p : forall n es,
  find_node n p = Some (Dir es) -> mkdir_parents n p = Ok n.
Proof.
  induction p as [|nm rest IH]; intros n es; simpl.
  - intros H. now inversion H.
  - destruct n as [|ents]; [discriminate|].
    destruct (assoc nm ents) as [c|] eqn:Ec; [|discriminate].
    intros H. rewrite (IH c es H). simpl.
    now rewrite (set_child_same nm c ents Ec).
Qed.

Lemma mkdir_parents_find p : forall n n',
  mkdir_parents n p = Ok n' -> exists es, find_node n' p = Some (Dir es).
Proof.
  induction p as [|nm rest IH]; intros n n'; simpl.
  - destruct n as [|es]; [discriminate|]. intros H. inversion H. now exists es.
  - destruct n as [|es]; [discriminate|].
    destruct (assoc nm es) as [c|] eqn:Ec.
    + destruct (mkdir_parents c rest) as [c'|e] eqn:Em; simpl; [|discriminate].
      intros H. inversion H; subst. simpl. rewrite assoc_set_child.
      now apply (IH c).
    + intros H. inversion H; subst. simpl.
      rewrite (assoc_app_new nm _ es Ec). exists []. apply find_fresh_dirs.
Qed.

Lemma mkdir_parents_fresh p : forall n n',
  find_node n p = None -> mkdir_parents n p = Ok n' ->
  find_node n' p = Some (Dir []).
Proof.
  induction p as [|nm rest IH]; intros n n'; simpl; [discriminate|].
  destruct n as [|es]; [discriminate|].
  destruct (assoc nm es) as [c|] eqn:Ec.
  - intros Hnone.
    destruct (mkdir_parents c rest) as [c'|e] eqn:Em; simpl; [|discriminate].
    intros H. inversion H; subst. simpl. rewrite assoc_set_child.
    now apply (IH c).
  - intros _ H. inversion H; subst. simpl.
    rewrite (assoc_app_new nm _ es Ec). apply find_fresh_dirs.
Qed.

Lemma open_write_existing p : forall n old data,
  find_node n p = Some (File true old) ->
  exists n', open_write n p data = Ok n'.
Proof.
  induction p as [|nm rest IH]; intros n old data; simpl.
  - intros H. inversion H. now exists (File true data).
  - destruct n as [|es]; [discriminate|].
    destruct (assoc nm es) as [c|] eqn:Ec; [|discriminate].
    intros H. destruct (IH c old data H) as [c' ->]. simpl. eauto.
Qed.

Lemma kept_lookup fs fs' q openable data :
  canonical q -> kept fs fs' q ->
  os_lookup fs q = Some (File openable data) ->
  os_lookup fs' q = Some (File openable data).
Proof.
  intros Hq Hkept. rewrite !os_lookup_canonical by exact Hq.
  unfold kept in Hkept. now intros H; rewrite H in Hkept.
Qed.

Lemma kept_lookup_dir fs fs' q es :
  canonical q -> kept fs fs' q ->
  os_lookup fs q = Some (Dir es) -> is_dir fs' q = true.
Proof.
  intros Hq Hkept. unfold is_dir. rewrite !os_lookup_canonical by exact Hq.
  unfold kept in Hkept. intros H. rewrite H in Hkept.
  destruct Hkept as [es' ->]. reflexivity.
Qed.

Lemma canonical_prefix q r : canonical (q ++ r) -> canonical q.
Proof. intros H. apply Forall_app in H. apply H. Qed.

Lemma path_parent_name (p : Path) : p <> [] -> p = parent p ++ [name p].
Proof. intros H. now apply app_removelast_last. Qed.

Lemma find_fresh_prefix p : forall q x,
  find_node (fresh_dirs p) q = Some x -> exists r, p = q ++ r.
Proof.
  induction p as [|nm p IH]; intros [|k q] x; simpl.
  - now exists [].
  - discriminate.
  - now exists (nm :: p).
  - destruct (pystr_eq_dec nm k) as [->|]; [|discriminate].
    intros H. destruct (IH q x H) as [r ->]. now exists r.
Qed.

(** [mkdir] adds nothing but the path and the directories on the way to
    it. *)
Lemma mkdir_parents_only p : forall n n' q x,
  mkdir_parents n p = Ok n' -> find_node n' q = Some x ->
  find_node n q <> None \/ exists r, p = q ++ r.
Proof.
  induction p as [|nm rest IH]; intros n n' q x; simpl.
  - destruct n; [discriminate|]. intros H. inversion H; subst.
    intros ->. now left.
  - destruct n as [|es]; [discriminate|].
    destruct (assoc nm es) as [c|] eqn:Ec.
    + destruct (mkdir_parents c rest) as [c'|e] eqn:Em; simpl; [|discriminate].
      intros H. inversion H; subst. destruct q as [|k q]; [now left|].
      simpl. destruct (pystr_eq_dec k nm) as [->|Hk].
      * rewrite assoc_set_child, Ec. intros Hfind.
        destruct (IH c c' q x Em Hfind) as [Hl|[r ->]]; [now left|].
        right. now exists r.
      * rewrite (assoc_set_child_other k nm c' es Hk). intros ->. now left.
    + intros H. inversion H; subst. destruct q as [|k q]; [now left|].
      simpl. destruct (pystr_eq_dec k nm) as [->|Hk].
      * rewrite (assoc_app_new nm _ es Ec). intros Hfind. right.
        destruct (find_fresh_prefix rest q x Hfind) as [r ->]. now exists r.
      * rewrite (assoc_app_other k nm _ es Hk). intros ->. now left.
Qed.

(** [mkdir] succeeds when no regular file lies at the path or on the way
    to it. *)
Lemma mkdir_parents_ok p : forall n,
  (forall q r openable data,
      p = q ++ r -> find_node n q <> Some (File openable data)) ->
  exists n', mkdir_parents n p = Ok n'.
Proof.
  induction p as [|nm rest IH]; intros n Hfree; simpl.
  - destruct n as [o d|es]; [|eauto].
    exfalso. now apply (Hfree [] [] o d).
  - destruct n as [o d|es]; [exfalso; now apply (Hfree [] (nm :: rest) o d)|].
    destruct (assoc nm es) as [c|] eqn:Ec; [|eauto].
    destruct (IH c) as [c' ->]; [|simpl; eauto].
    intros q r o d -> Hfind. apply (Hfree (nm :: q) r o d); [reflexivity|].
    simpl. now rewrite Ec.
Qed.

(** Opening for writing succeeds when every proper prefix of the path
    is a directory and the path names nothing or an openable file. *)
Lemma open_write_ok p : forall n data,
  (forall q r,
      p = q ++ r -> r <> [] -> exists es, find_node n q = Some (Dir es)) ->
  (find_node n p = None \/ exists old, find_node n p = Some (File true old)) ->
  exists n', open_write n p data = Ok n'.
Proof.
  induction p as [|nm rest IH]; intros n data Hdirs Htarget; simpl.
  - destruct Htarget as [H|[old H]]; simpl in H; [discriminate|].
    inversion H. eauto.
  - destruct (Hdirs [] (nm :: rest) eq_refl) as [es Hn]; [discriminate|].
    simpl in Hn. inversion Hn; subst n. simpl in Htarget.
    destruct (assoc nm es) as [c|] eqn:Ec.
    + destruct (IH c data) as [c' ->]; [| exact Htarget | simpl; eauto].
      intros q r -> Hr. destruct (Hdirs (nm :: q) r eq_refl Hr) as [es' H].
      simpl in H. rewrite Ec in H. eauto.
    + destruct rest as [|k rest]; [eauto|].
      destruct (Hdirs [nm] (k :: rest) eq_refl) as [es' H]; [discriminate|].
      simpl in H. now rewrite Ec in H.
Qed.

Lemma find_dir_prefix n q r es :
  find_node n (q ++ r) = Some (Dir es) ->
  exists es', find_node n q = Some (Dir es').
Proof.
  intros H. destruct r as [|k r].
  - rewrite app_nil_r in H. eauto.
  - destruct (find_node_prefix n q (k :: r) _ H) as (m & Hm & Hdir).
    destruct Hdir as [es' ->]; [discriminate|]. eauto.
Qed.

Lemma proper_prefix_of_parent (p q r : Path) :
  p = q ++ r -> r <> [] -> exists r', parent p = q ++ r'.
Proof.
  intros -> Hr. exists (removelast r). unfold parent.
  now apply removelast_app.
Qed.

Lemma parent_not_below (p : Path) r : p <> [] -> parent p <> p ++ r.
Proof.
  intros Hp H. apply (f_equal (@length _)) in H.
  rewrite (path_parent_name p Hp) in H at 2.
  rewrite !length_app in H. simpl in H. lia.
Qed.

Lemma is_file_false_find fs q openable data :
  canonical q -> is_file fs q = false ->
  find_node fs q <> Some (File openable data).
Proof.
  intros Hq. unfold is_file. rewrite os_lookup_canonical by exact Hq.
  intros H E. rewrite E in H. discriminate.
Qed.

Lemma is_dir_root_path fs path :
  is_dir fs [] = true ->
  (exists_ fs path = false
   \/ exists old, os_lookup fs path = Some (File true old)) ->
  path <> [].
Proof.
  unfold is_dir, exists_. intros Hroot Htarget ->.
  destruct (os_lookup fs []) as [[|]|]; try discriminate.
  destruct Htarget as [H|[old H]]; discriminate.
Qed.

(** X3: A write succeeds when no regular file lies on the way to the
    target, the target is new and within the limits of the host (no
    name over 255 bytes, less than 4096 bytes in all, at most 256
    parts), or an openable file to be overwritten, and the text can be
    encoded.  It then leaves the target as an openable file holding the
    UTF-8 bytes of the text below directories, and [get_file_info]
    reports the number of those bytes. *)
Theorem write_file_saves W fs file_path content overwrite path b :
  _safe_path W file_path = Ok path ->
  is_dir fs [] = true ->
  (forall q r, path = q ++ r -> r <> [] -> is_file fs q = false) ->
  (exists_ fs path = false /\ host_path path = true
   /\ shallow_path path = true
   \/ overwrite = true
      /\ exists old, os_lookup fs path = Some (File true old)) ->
  utf8_encode content = Some b ->
  exists fs',
    write_file W fs file_path content overwrite
    = (Ok (MsgSaved file_path (length content) (count LF content + 1)), fs')
    /\ os_lookup fs' path = Some (File true b)
    /\ (forall q r, path = q ++ r -> r <> [] -> is_dir fs' q = true)
    /\ get_file_info W fs' file_path
       = Ok (MsgFileInfo file_path (suffix path) (length b)).
Proof.
  intros Hsafe Hroot Hfree Htarget Henc.
  pose proof (safe_path_canonical _ _ _ Hsafe) as Hc.
  assert (Hne : path <> []).
  { apply (is_dir_root_path fs); [exact Hroot|]. tauto. }
  assert (Hcp : canonical (parent path)) by now apply removelast_Forall.
  (* the parents *)
  destruct (mkdir_parents_ok (parent path) fs) as [fs1 Hmk].
  { intros q r o d Hq. apply is_file_false_find.
    - rewrite Hq in Hcp. now apply canonical_prefix in Hcp.
    - apply (Hfree q (r ++ [name path])).
      + rewrite app_assoc, <- Hq. now apply path_parent_name.
      + now destruct r. }
  (* the target after the parents are there *)
  destruct (mkdir_parents_find _ _ _ Hmk) as [pes Hparent].
  assert (Htarget1 : find_node fs1 path = None
                     \/ exists old, find_node fs1 path = Some (File true old)).
  { destruct Htarget as [[Hnew _]|[_ [old Hold]]].
    - left. destruct (find_node fs1 path) as [x|] eqn:E; [|reflexivity].
      exfalso.
      destruct (mkdir_parents_only _ _ _ path x Hmk E) as [Hthere|[r Hr]].
      + apply Hthere. unfold exists_ in Hnew.
        rewrite os_lookup_canonical in Hnew by exact Hc.
        now destruct (find_node fs path).
      + now apply (parent_not_below path r).
    - right. exists old.
      rewrite os_lookup_canonical in Hold by exact Hc.
      pose proof (mkdir_parents_kept _ _ _ path Hmk) as Hk.
      unfold kept in Hk. now rewrite Hold in Hk. }
  destruct (open_write_ok path fs1 b) as [fs' Hopen]; [|exact Htarget1|].
  { intros q r Hq Hr.
    destruct (proper_prefix_of_parent path q r Hq Hr) as [r' Hr'].
    rewrite Hr' in Hparent. now apply (find_dir_prefix fs1 q r' pes). }
  pose proof (open_write_find _ _ _ _ Hopen) as Hfile.
  exists fs'. split; [|split; [|split]].
  - unfold write_file. rewrite (try_safe_path_ok _ _ _ Hsafe).
    replace (exists_ fs path && negb overwrite)%bool with false
      by (destruct Htarget as [[-> _]|[-> _]];
          [reflexivity | now rewrite andb_false_r]).
    rewrite Hmk. unfold write_text. rewrite Henc, Hopen. reflexivity.
  - now rewrite os_lookup_canonical.
  - intros q r Hq Hr. unfold is_dir.
    rewrite os_lookup_canonical
      by (rewrite Hq in Hc; now apply canonical_prefix in Hc).
    rewrite Hq in Hfile.
    destruct (find_node_prefix fs' q r _ Hfile) as (m & -> & Hdir).
    now destruct (Hdir Hr) as [es ->].
  - unfold get_file_info.
    rewrite <- os_lookup_canonical in Hfile by exact Hc.
    now rewrite (try_safe_path_ok _ _ _ Hsafe), (exists_lookup _ _ _ Hfile),
      Hfile.
Qed.

Lemma write_file_saves_witness :
  exists fs',
    write_file Sample.WORKSPACE Sample.notes (lit "new/ga.txt") Sample.ga_text
      false = (Ok (MsgSaved (lit "new/ga.txt") 5 2), fs')
    /\ os_lookup fs' [lit "workspace"; lit "new"; lit "ga.txt"]
       = Some (File true [xea; xb0; x80; x0a; x74; x77; x6f])
    /\ (forall q r,
          [lit "workspace"; lit "new"; lit "ga.txt"] = q ++ r -> r <> [] ->
          is_dir fs' q = true)
    /\ get_file_info Sample.WORKSPACE fs' (lit "new/ga.txt")
       = Ok (MsgFileInfo (lit "new/ga.txt") (lit ".txt") 7).
Proof.
  apply (write_file_saves Sample.WORKSPACE Sample.notes (lit "new/ga.txt")
           Sample.ga_text false [lit "workspace"; lit "new"; lit "ga.txt"]
           [xea; xb0; x80; x0a; x74; x77; x6f]).
  - reflexivity.
  - reflexivity.
  - intros [|a [|b [|c [|d q]]]] r H Hr; try reflexivity;
      inversion H; subst; reflexivity.
  - left. repeat split; reflexivity.
  - reflexivity.
Defined.

Lemma write_file_kept W fs file_path content overwrite q :
  _safe_path W file_path <> Ok q ->
  kept fs (snd (write_file W fs file_path content overwrite)) q.
Proof.
  intros Hq. unfold write_file.
  destruct (try_safe_path_cases W file_path) as [(p & Hp & ->)|(e0 & _ & ->)];
    [|apply kept_refl].
  destruct (exists_ fs p && negb overwrite)%bool; [apply kept_refl|].
  destruct (mkdir_parents fs (parent p)) as [fs1|e] eqn:Em; [|apply kept_refl].
  apply (kept_trans fs fs1); [now apply (mkdir_parents_kept (parent p))|].
  unfold write_text.
  destruct (open_write fs1 p _) as [fs2|e] eqn:Ew.
  - assert (Hk : kept fs1 fs2 q).
    { apply (open_write_kept p fs1 _ fs2 q Ew). intros ->. now apply Hq. }
    now destruct (utf8_encode content).
  - apply kept_refl.
Qed.

(** X4: A write, whatever its outcome, leaves every regular file other than
    its target with its bytes, and every directory a directory. *)
Theorem write_file_keeps_other_files W fs file_path content overwrite q :
  canonical q ->
  _safe_path W file_path <> Ok q ->
  let fs' := snd (write_file W fs file_path content overwrite) in
  (forall openable data,
      os_lookup fs q = Some (File openable data) ->
      os_lookup fs' q = Some (File openable data))
  /\ (is_dir fs q = true -> is_dir fs' q = true).
Proof.
  intros Hc Hq fs'.
  pose proof (write_file_kept W fs file_path content overwrite q Hq) as Hk.
  split.
  - intros openable data. now apply kept_lookup.
  - unfold is_dir at 1. destruct (os_lookup fs q) as [[|es]|] eqn:E;
      try discriminate.
    intros _. now apply (kept_lookup_dir fs fs' q es).
Qed.

Lemma write_file_keeps_other_files_witness :
  let fs' := snd (write_file Sample.WORKSPACE Sample.notes (lit "b.txt")
                    (lit "changed") true) in
  (forall openable data,
      os_lookup Sample.notes [lit "workspace"; lit "a.txt"]
      = Some (File openable data) ->
      os_lookup fs' [lit "workspace"; lit "a.txt"]
      = Some (File openable data))
  /\ (is_dir Sample.notes [lit "workspace"; lit "a.txt"] = true ->
      is_dir fs' [lit "workspace"; lit "a.txt"] = true).
Proof.
  apply (write_file_keeps_other_files Sample.WORKSPACE Sample.notes
           (lit "b.txt") (lit "changed") true [lit "workspace"; lit "a.txt"]).
  - repeat constructor; discriminate.
  - vm_compute. discriminate.
Defined.

(** X5: A text UTF-8 cannot encode destroys what it was to replace: the
    write raises [UnicodeEncodeError] after the file was truncated. *)
Theorem write_file_unencodable_truncates W fs file_path content path old :
  _safe_path W file_path = Ok path ->
  is_dir fs [] = true ->
  os_lookup fs path = Some (File true old) ->
  utf8_encode content = None ->
  fst (write_file W fs file_path content true) = Raise UnicodeEncodeError
  /\ os_lookup (snd (write_file W fs file_path content true)) path
     = Some (File true []).
Proof.
  intros Hsafe Hroot Hold Henc.
  pose proof (safe_path_canonical _ _ _ Hsafe) as Hc.
  assert (Hne : path <> []) by (apply (is_dir_root_path fs); eauto).
  pose proof Hold as Hfind. rewrite os_lookup_canonical in Hfind by exact Hc.
  assert (Hparent : exists es, find_node fs (parent path) = Some (Dir es)).
  { rewrite (path_parent_name path Hne) in Hfind.
    destruct (find_node_prefix fs _ _ _ Hfind) as (m & Hm & Hdir).
    destruct Hdir as [es ->]; [discriminate|]. eauto. }
  destruct Hparent as [es Hparent].
  destruct (open_write_existing path fs old [] Hfind) as [fs' Hopen].
  unfold write_file.
  rewrite (try_safe_path_ok _ _ _ Hsafe), andb_false_r,
    (mkdir_parents_existing _ _ _ Hparent).
  unfold write_text. rewrite Henc, Hopen. cbn [fst snd]. split; [reflexivity|].
  rewrite os_lookup_canonical by exact Hc.
  now apply (open_write_find path fs).
Qed.

Lemma write_file_unencodable_truncates_witness :
  fst (write_file Sample.WORKSPACE Sample.notes (lit "b.txt") [55296] true)
  = Raise UnicodeEncodeError
  /\ os_lookup
       (snd (write_file Sample.WORKSPACE Sample.notes (lit "b.txt") [55296]
               true))
       [lit "workspace"; lit "b.txt"]
     = Some (File true []).
Proof.
  apply (write_file_unencodable_truncates Sample.WORKSPACE Sample.notes
           (lit "b.txt") [55296] [lit "workspace"; lit "b.txt"]
           (Sample.text "nothing to see")); reflexivity.
Defined.

(** ** Creating directories *)

(** X7: A directory is created, with every directory missing on the way,
    when the path is new, within the limits of the host (no name over
    255 bytes, less than 4096 bytes in all, at most 256 parts), and no
    regular file lies on the way.  The new directory is empty,
    [get_file_info] reports it so, and a second creation answers that
    it exists and changes nothing. *)
Theorem create_directory_nested W fs dir_path path :
  _safe_path W dir_path = Ok path ->
  host_path path = true ->
  shallow_path path = true ->
  exists_ fs path = false ->
  (forall q r, path = q ++ r -> is_file fs q = false) ->
  exists fs',
    create_directory W fs dir_path = (Ok (MsgDirCreated dir_path), fs')
    /\ os_lookup fs' path = Some (Dir [])
    /\ (forall q r, path = q ++ r -> is_dir fs' q = true)
    /\ get_file_info W fs' dir_path = Ok (MsgDirInfo dir_path 0 0)
    /\ create_directory W fs' dir_path
       = (Ok (MsgAlreadyExists dir_path), fs').
Proof.
  intros Hsafe _ _ Hnew Hfree.
  pose proof (safe_path_canonical _ _ _ Hsafe) as Hc.
  destruct (mkdir_parents_ok path fs) as [fs' Hmk].
  { intros q r o d Hq. apply is_file_false_find.
    - rewrite Hq in Hc. now apply canonical_prefix in Hc.
    - now apply (Hfree q r). }
  assert (Hnone : find_node fs path = None).
  { unfold exists_ in Hnew. rewrite os_lookup_canonical in Hnew by exact Hc.
    now destruct (find_node fs path). }
  pose proof (mkdir_parents_fresh _ _ _ Hnone Hmk) as Hdir.
  assert (Hdir' : os_lookup fs' path = Some (Dir []))
    by now rewrite os_lookup_canonical.
  exists fs'. split; [|split; [|split; [|split]]].
  - unfold create_directory.
    now rewrite (try_safe_path_ok _ _ _ Hsafe), Hnew, Hmk.
  - exact Hdir'.
  - intros q r Hq. unfold is_dir.
    rewrite os_lookup_canonical
      by (rewrite Hq in Hc; now apply canonical_prefix in Hc).
    rewrite Hq in Hdir.
    now destruct (find_dir_prefix fs' q r [] Hdir) as [es ->].
  - unfold get_file_info.
    now rewrite (try_safe_path_ok _ _ _ Hsafe), (exists_lookup _ _ _ Hdir'),
      Hdir'.
  - unfold create_directory.
    now rewrite (try_safe_path_ok _ _ _ Hsafe), (exists_lookup _ _ _ Hdir').
Qed.

Lemma create_directory_nested_witness :
  exists fs',
    create_directory Sample.WORKSPACE Sample.notes (lit "p/q")
    = (Ok (MsgDirCreated (lit "p/q")), fs')
    /\ os_lookup fs' [lit "workspace"; lit "p"; lit "q"] = Some (Dir [])
    /\ (forall q r,
          [lit "workspace"; lit "p"; lit "q"] = q ++ r -> is_dir fs' q = true)
    /\ get_file_info Sample.WORKSPACE fs' (lit "p/q")
       = Ok (MsgDirInfo (lit "p/q") 0 0)
    /\ create_directory Sample.WORKSPACE fs' (lit "p/q")
       = (Ok (MsgAlreadyExists (lit "p/q")), fs').
Proof.
  apply (create_directory_nested Sample.WORKSPACE Sample.notes (lit "p/q")
           [lit "workspace"; lit "p"; lit "q"]).
  - reflexivity.
  - reflexivity.
  - reflexivity.
  - reflexivity.
  - intros [|a [|b [|c [|d q]]]] r H; inversion H; subst; reflexivity.
Defined.

Lemma mkdir_parents_blocked q : forall n p r openable data,
  find_node n q = Some (File openable data) ->
  p = q ++ r -> r <> [] ->
  mkdir_parents n p = Raise NotADirectoryError.
Proof.
  induction q as [|k q IH]; intros n p r openable data Hfile -> Hr.
  - simpl in Hfile. inversion Hfile; subst.
    destruct r; [contradiction|reflexivity].
  - simpl in Hfile. destruct n as [|es]; [discriminate|].
    simpl. destruct (assoc k es) as [c|]; [|discriminate].
    now rewrite (IH c (q ++ r) r openable data Hfile eq_refl Hr).
Qed.



(** X9: A directory creation, whatever its outcome, leaves every regular
    file with its bytes and every directory a directory. *)
Theorem create_directory_keeps_tree W fs dir_path q :
  canonical q ->
  let fs' := snd (create_directory W fs dir_path) in
  (forall openable data,
      os_lookup fs q = Some (File openable data) ->
      os_lookup fs' q = Some (File openable data))
  /\ (is_dir fs q = true -> is_dir fs' q = true).
Proof.
  intros Hc fs'.
  assert (Hk : kept fs fs' q).
  { unfold fs', create_directory.
    destruct (try_safe_path_cases W dir_path) as [(p & Hp & ->)|(e0 & _ & ->)];
      [|apply kept_refl].
    destruct (exists_ fs p); [apply kept_refl|].
    destruct (mkdir_parents fs p) as [fs1|e] eqn:Em; [|apply kept_refl].
    now apply (mkdir_parents_kept p). }
  split.
  - intros openable data. now apply kept_lookup.
  - unfold is_dir at 1. destruct (os_lookup fs q) as [[|es]|] eqn:E;
      try discriminate.
    intros _. now apply (kept_lookup_dir fs fs' q es).
Qed.

Lemma create_directory_keeps_tree_witness :
  let fs' := snd (create_directory Sample.WORKSPACE Sample.notes
                    (lit "a/b")) in
  (forall openable data,
      os_lookup Sample.notes [lit "workspace"; lit "a.txt"]
      = Some (File openable data) ->
      os_lookup fs' [lit "workspace"; lit "a.txt"]
      = Some (File openable data))
  /\ (is_dir Sample.notes [lit "workspace"; lit "a.txt"] = true ->
      is_dir fs' [lit "workspace"; lit "a.txt"] = true).
Proof.
  apply (create_directory_keeps_tree Sample.WORKSPACE Sample.notes (lit "a/b")
           [lit "workspace"; lit "a.txt"]).
  repeat constructor; discriminate.
Defined.

(** ** What the path check accepts *)

Lemma fold_realpath_plain p : forall acc,
  canonical p -> fold_left realpath_step p acc = acc ++ p.
Proof.
  induction p as [|nm p IH]; intros acc Hp; simpl.
  - now rewrite app_nil_r.
  - inversion Hp as [|? ? Hnm Hrest]; subst. unfold realpath_step at 2.
    destruct (pystr_eq_dec nm dotdot); [contradiction|].
    rewrite (IH _ Hrest), <- app_assoc. reflexivity.
Qed.

Lemma resolve_canonical_id p : canonical p -> resolve p = p.
Proof. intros H. unfold resolve. now rewrite fold_realpath_plain. Qed.

(** X1: A relative path without [..], without a null character and
    without a surrogate the filesystem encoding refuses is accepted and
    names the path of its parts below the workspace; the empty path
    names the workspace. *)
Theorem safe_path_plain W s :
  canonical W ->
  isabs s = false ->
  host_text s = true ->
  canonical (parse_parts s) ->
  _safe_path W s = Ok (W ++ parse_parts s).
Proof.
  intros HW Habs Htext Hs.
  assert (Hres : resolve (truediv W s) = W ++ parse_parts s).
  { unfold truediv. rewrite Habs. apply resolve_canonical_id.
    now apply Forall_app. }
  rewrite <- Hres.
  apply safe_path_accepts_confined; [now apply host_text_lstat|].
  rewrite Hres, (resolve_canonical_id W HW). now exists (parse_parts s).
Qed.

Lemma safe_path_plain_witness :
  _safe_path Sample.WORKSPACE (lit "docs/./a//b.txt")
  = Ok (Sample.WORKSPACE ++ [lit "docs"; lit "a"; lit "b.txt"]).
Proof.
  apply (safe_path_plain Sample.WORKSPACE (lit "docs/./a//b.txt")).
  - repeat constructor; discriminate.
  - reflexivity.
  - reflexivity.
  - vm_compute. repeat constructor; discriminate.
Defined.

Lemma split_fields_plain s :
  Forall (fun f => has_char SLASH f = false) (split SLASH s).
Proof.
  induction s as [|x s IH]; [repeat constructor|].
  cbn [split]. destruct (x =? SLASH) eqn:E.
  - constructor; [reflexivity | exact IH].
  - destruct (split SLASH s) as [|f fs]; [repeat constructor|].
    + unfold has_char. cbn [existsb]. now rewrite N.eqb_sym, E.
    + inversion IH as [|? ? Hf Hfs]; subst. constructor; [|exact Hfs].
      unfold has_char in *. cbn [existsb]. now rewrite N.eqb_sym, E, Hf.
Qed.

Lemma parse_parts_plain s : plain_parts (parse_parts s).
Proof.
  unfold plain_parts, parse_parts. apply Forall_forall. intros part Hin.
  apply filter_In in Hin. destruct Hin as [Hin Hkeep]. split.
  - intros ->. now destruct (pystr_eq_dec [] []).
  - pose proof (split_fields_plain s) as H.
    rewrite Forall_forall in H. now apply H.
Qed.

Lemma fold_realpath_Forall (P : pystr -> Prop) p : forall acc,
  Forall P p -> Forall P acc -> Forall P (fold_left realpath_step p acc).
Proof.
  induction p as [|nm p IH]; intros acc Hp Hacc; simpl; [exact Hacc|].
  inversion Hp; subst. apply IH; [assumption|]. unfold realpath_step.
  destruct (pystr_eq_dec nm dotdot).
  - now apply removelast_Forall.
  - apply Forall_app. split; [assumption|]. now repeat constructor.
Qed.

Lemma resolved_plain W s :
  plain_parts W -> plain_parts (resolve (truediv W s)).
Proof.
  intros HW. apply fold_realpath_Forall; [|constructor].
  unfold truediv. apply Forall_app. split.
  - destruct (isabs s); [constructor | exact HW].
  - apply parse_parts_plain.
Qed.

(** A name without separator that starts a text whose next character,
    if any, is a separator starts the first name of that text. *)
Lemma startswith_name w : forall x t,
  has_char SLASH w = false ->
  (t = [] \/ exists t', t = SLASH :: t') ->
  startswith (x ++ t) w = true -> startswith x w = true.
Proof.
  unfold has_char. induction w as [|a w IH]; intros x t Hw Ht; [reflexivity|].
  cbn [existsb] in Hw. apply orb_false_iff in Hw. destruct Hw as [Ha Hw].
  destruct x as [|b x]; cbn [app startswith].
  - destruct Ht as [->|[t' ->]]; [discriminate|].
    cbn [startswith]. rewrite N.eqb_sym, Ha. discriminate.
  - intros H. apply andb_true_iff in H. destruct H as [Hab H].
    rewrite Hab. now apply (IH x t).
Qed.

Lemma startswith_name_sep w : forall x t u,
  has_char SLASH x = false -> has_char SLASH w = false ->
  (t = [] \/ exists t', t = SLASH :: t') ->
  startswith (x ++ t) (w ++ SLASH :: u) = true ->
  x = w /\ startswith t (SLASH :: u) = true.
Proof.
  unfold has_char. induction w as [|a w IH]; intros x t u Hx Hw Ht.
  - destruct x as [|b x]; [now split|].
    cbn [app startswith existsb] in *. apply orb_false_iff in Hx.
    destruct Hx as [Hb _]. rewrite Hb. discriminate.
  - cbn [existsb] in Hw. apply orb_false_iff in Hw. destruct Hw as [Ha Hw].
    destruct x as [|b x]; cbn [app startswith].
    + destruct Ht as [->|[t' ->]]; [discriminate|].
      cbn [startswith]. rewrite N.eqb_sym, Ha. discriminate.
    + cbn [existsb] in Hx. apply orb_false_iff in Hx. destruct Hx as [_ Hx].
      intros H. apply andb_true_iff in H. destruct H as [Hab H].
      apply N.eqb_eq in Hab. subst b.
      destruct (IH x t u Hx Hw Ht H) as [-> Hrest]. now split.
Qed.

Lemma joined_head (p : Path) :
  let t := List.concat (map (fun part => SLASH :: part) p) in
  t = [] \/ exists t', t = SLASH :: t'.
Proof. destruct p as [|x p]; [now left|]. right. simpl. eauto. Qed.

Lemma startswith_joined W : forall p,
  W <> [] -> plain_parts W -> plain_parts p ->
  startswith (List.concat (map (fun part => SLASH :: part) p))
             (List.concat (map (fun part => SLASH :: part) W)) = true ->
  exists x rest,
    p = removelast W ++ x :: rest /\ startswith x (last W []) = true.
Proof.
  induction W as [|w W IH]; intros p Hne HW Hp; [contradiction|].
  inversion HW as [|? ? [Hw0 Hw] HW']; subst.
  destruct p as [|x p]; [discriminate|].
  inversion Hp as [|? ? [Hx0 Hx] Hp']; subst.
  cbn [map List.concat app startswith]. rewrite N.eqb_refl. cbn [andb].
  destruct W as [|w2 W].
  - cbn [map List.concat]. rewrite app_nil_r. intros H.
    exists x, p. split; [reflexivity|].
    apply (startswith_name w x _ Hw (joined_head p) H).
  - cbn [map List.concat app]. intros H.
    destruct (startswith_name_sep w x _ _ Hx Hw (joined_head p) H)
      as [-> Hrest].
    destruct (IH p) as (x' & rest & -> & Hx'); [discriminate|exact HW'|
                                                 exact Hp'|exact Hrest|].
    exists x', rest. split; [reflexivity | exact Hx'].
Qed.

Lemma accepted_path_shape W s p :
  W <> [] -> canonical W -> plain_parts W ->
  _safe_path W s = Ok p ->
  exists x rest,
    p = parent W ++ x :: rest /\ startswith x (name W) = true.
Proof.
  intros Hne Hc HW Hsafe. apply safe_path_inv in Hsafe.
  destruct Hsafe as [-> Hprefix].
  rewrite (resolve_canonical_id W Hc) in Hprefix.
  pose proof (resolved_plain W s HW) as Hp.
  destruct W as [|w W]; [contradiction|].
  destruct (resolve (truediv (w :: W) s)) as [|x p] eqn:E.
  - exfalso. inversion HW as [|? ? [Hw0 _] _]; subst.
    destruct w as [|c w]; [contradiction|].
    cbn [str map List.concat app startswith] in Hprefix.
    rewrite N.eqb_refl in Hprefix. discriminate.
  - now apply startswith_joined.
Qed.

(** X2: Whatever the check accepts lies in the directory that holds the
    workspace, under a name that starts with the name of the workspace:
    a path is refused as soon as it leaves that directory or takes
    another first name in it. *)
Theorem safe_path_stays_near W s p :
  W <> [] -> canonical W -> plain_parts W ->
  _safe_path W s = Ok p ->
  exists x rest,
    p = parent W ++ x :: rest /\ startswith x (name W) = true.
Proof. apply accepted_path_shape. Qed.

Lemma safe_path_stays_near_witness :
  exists x rest,
    [lit "workspace-evil"; lit "secret.txt"]
    = parent Sample.WORKSPACE ++ x :: rest
    /\ startswith x (name Sample.WORKSPACE) = true.
Proof.
  apply (safe_path_stays_near Sample.WORKSPACE
           (lit "../workspace-evil/secret.txt")).
  - discriminate.
  - repeat constructor; discriminate.
  - repeat constructor; discriminate.
  - reflexivity.
Defined.

(** ** What a search returns *)

Lemma search_loop_result W lower codecs_lookup fs keyword decode files :
  codecs_lookup (lit "utf-8") = Some decode ->
  Forall (within W) files ->
  forall results n,
    search_loop W lower codecs_lookup fs keyword files results n
    = Ok (results ++ flat_map (file_hits W lower decode fs keyword) files,
          (n + length (filter (is_file fs) files))%nat).
Proof.
  intros Hcodec. induction 1 as [|f files [rest Hf] _ IH]; intros results n.
  - simpl. now rewrite app_nil_r, Nat.add_0_r.
  - cbn [search_loop flat_map filter].
    unfold file_hits at 1, is_file, read_text.
    rewrite (relative_to_within W f rest Hf).
    destruct (os_lookup fs f) as [[[|] data|es]|]; cbn [negb length app].
    + rewrite Hcodec. destruct (decode data) as [text|].
      * rewrite (scan_lines_expected W lower keyword f rest)
          by now apply relative_to_within.
        cbn [bind]. rewrite IH, <- app_assoc, Nat.add_succ_comm.
        reflexivity.
      * now rewrite IH, Nat.add_succ_comm.
    + now rewrite IH, Nat.add_succ_comm.
    + apply IH.
    + apply IH.
Qed.



Lemma contains_empty hay : contains [] hay = true.
Proof. now destruct hay. Qed.

(** X11: The empty keyword is found in every line: each line of a file is a
    hit. *)
Theorem scan_lines_empty_keyword W lower file_path relative lines i :
  lower [] = [] ->
  relative_to file_path W = Some relative ->
  scan_lines W lower [] file_path i lines
  = Ok (map (fun il => Hit relative (fst il) (strip (snd il)))
          (enumerate i lines)).
Proof.
  intros Hlower Hrel.
  rewrite (scan_lines_expected W lower [] file_path relative lines Hrel).
  do 2 f_equal. rewrite Hlower. clear. revert i.
  induction lines as [|line lines IH]; intros i; simpl; [reflexivity|].
  now rewrite contains_empty, IH.
Qed.

Lemma scan_lines_empty_keyword_witness :
  scan_lines Sample.WORKSPACE ascii_lower [] [lit "workspace"; lit "a.txt"] 1
    [lit "one"; []; lit " two "]
  = Ok [Hit [lit "a.txt"] 1 (lit "one"); Hit [lit "a.txt"] 2 [];
        Hit [lit "a.txt"] 3 (lit "two")].
Proof.
  apply (scan_lines_empty_keyword Sample.WORKSPACE ascii_lower
           [lit "workspace"; lit "a.txt"] [lit "a.txt"]
           [lit "one"; []; lit " two "] 1);
    reflexivity.
Defined.

Lemma split_length s : length (split LF s) = (count LF s + 1)%nat.
Proof.
  induction s as [|x s IH]; [reflexivity|]. cbn [split count].
  destruct (x =? LF); cbn [length]; [now rewrite IH|].
  destruct (split LF s); cbn [length] in *; lia.
Qed.

Lemma scan_lines_numbers W lower keyword file_path lines :
  forall i hits,
    scan_lines W lower keyword file_path i lines = Ok hits ->
    Forall (fun h => (i <= hit_lineno h < i + length lines)%nat) hits
    /\ StronglySorted (fun a b => (hit_lineno a < hit_lineno b)%nat) hits.
Proof.
  induction lines as [|line lines IH]; intros i hits; cbn [scan_lines].
  - intros H. inversion H. split; constructor.
  - assert (Hnext : forall more,
               scan_lines W lower keyword file_path (S i) lines = Ok more ->
               Forall
                 (fun h => (S i <= hit_lineno h < i + S (length lines))%nat)
                 more
               /\ StronglySorted
                    (fun a b => (hit_lineno a < hit_lineno b)%nat) more).
    { intros more Hmore. destruct (IH (S i) more Hmore) as [Hb Hs].
      split; [|exact Hs]. revert Hb. apply Forall_impl. intros h. lia. }
    destruct (contains (lower keyword) (lower line)).
    + destruct (relative_to file_path W) as [relative|]; [|discriminate].
      destruct (scan_lines W lower keyword file_path (S i) lines)
        as [more|e]; [|discriminate].
      cbn [bind]. intros H. inversion H; subst.
      destruct (Hnext more eq_refl) as [Hb Hs]. split.
      * constructor; [cbn; lia|]. revert Hb. apply Forall_impl.
        intros h. cbn [length]. lia.
      * constructor; [exact Hs|]. revert Hb. apply Forall_impl.
        intros h. cbn. lia.
    + intros H. destruct (Hnext hits H) as [Hb Hs]. split; [|exact Hs].
      revert Hb. apply Forall_impl. intros h. cbn [length]. lia.
Qed.

(** X12: The hits of a text carry line numbers that increase, from 1 up to
    the line count [read_file] reports for the same text. *)
Theorem hit_numbers_within_line_count W lower keyword file_path content hits :
  scan_lines W lower keyword file_path 1 (split LF content) = Ok hits ->
  Forall (fun h => (1 <= hit_lineno h <= count LF content + 1)%nat) hits
  /\ StronglySorted (fun a b => (hit_lineno a < hit_lineno b)%nat) hits.
Proof.
  intros H. destruct (scan_lines_numbers _ _ _ _ _ _ _ H) as [Hb Hs].
  split; [|exact Hs]. revert Hb. apply Forall_impl. intros h.
  rewrite split_length. lia.
Qed.

Lemma hit_numbers_within_line_count_witness :
  Forall (fun h => (1 <= hit_lineno h <= 2 + 1)%nat)
    [Hit [lit "a.txt"] 1 (lit "say Hello"); Hit [lit "a.txt"] 3 (lit "hello")]
  /\ StronglySorted (fun a b => (hit_lineno a < hit_lineno b)%nat)
       [Hit [lit "a.txt"] 1 (lit "say Hello");
        Hit [lit "a.txt"] 3 (lit "hello")].
Proof.
  apply (hit_numbers_within_line_count Sample.WORKSPACE ascii_lower
           (lit "HELLO") [lit "workspace"; lit "a.txt"]
           (lit "say Hello" ++ [LF] ++ lit "no" ++ [LF] ++ lit " hello ")).
  reflexivity.
Defined.

(** ** Listings and the workspace resource *)

Lemma list_items_length W fs items : forall lines,
  list_items W fs items = Ok lines -> length lines = length items.
Proof.
  induction items as [|item items IH]; intros lines; simpl.
  - intros H. now inversion H.
  - destruct (list_item W fs item) as [line|e]; [|discriminate].
    destruct (list_items W fs items) as [more|e]; [|discriminate].
    cbn [bind]. intros H. inversion H; subst. simpl. now rewrite (IH more).
Qed.

(** X13: A listing is never empty: its total is the number of its lines and
    of the paths the pattern yields, and is at least 1. *)
Theorem list_files_total W fnmatch fs directory pattern lines total :
  list_files W fnmatch fs directory pattern
  = Ok (MsgListing directory pattern lines total) ->
  total = length lines /\ (0 < total)%nat
  /\ exists target found,
       _safe_path W directory = Ok target
       /\ glob fnmatch fs target pattern = Ok found
       /\ total = length found.
Proof.
  unfold list_files.
  destruct (try_safe_path_cases W directory)
    as [(target & Hsafe & ->)|(e0 & _ & ->)];
    [|discriminate].
  destruct (negb (exists_ fs target)); [discriminate|].
  destruct (negb (is_dir fs target)); [discriminate|].
  destruct (glob fnmatch fs target pattern) as [found|e] eqn:Eg;
    [|discriminate].
  cbn [bind]. pose proof (sorted_perm found) as Hperm.
  destruct (sorted found) as [|item items] eqn:Es; [discriminate|].
  destruct (list_items W fs (item :: items)) as [ls|e] eqn:El;
    [|discriminate].
  cbn [bind]. intros H. inversion H; subst.
  apply list_items_length in El. cbn [length] in *.
  split; [lia|]. split; [lia|].
  exists target, found. split; [exact Hsafe|]. split; [exact Eg|].
  rewrite <- (Permutation_length Hperm). reflexivity.
Qed.

Lemma list_files_total_witness :
  2%nat = length [EntryFile [lit "a.txt"] (Size_B 5);
                     EntryFile [lit "raw.txt"] (Size_B 2)]
  /\ (0 < 2)%nat
  /\ exists target found,
       _safe_path Sample.WORKSPACE [] = Ok target
       /\ glob fnmatch_simple Sample.mixed target (lit "*.txt") = Ok found
       /\ 2%nat = length found.
Proof.
  apply (list_files_total Sample.WORKSPACE fnmatch_simple Sample.mixed []
           (lit "*.txt")
           [EntryFile [lit "a.txt"] (Size_B 5);
            EntryFile [lit "raw.txt"] (Size_B 2)] 2).
  vm_compute. reflexivity.
Defined.

Lemma filter_partition_length {A} (f : A -> bool) l :
  length l
  = (length (filter f l) + length (filter (fun x => negb (f x)) l))%nat.
Proof.
  induction l as [|x l IH]; simpl; [reflexivity|].
  destruct (f x); simpl; lia.
Qed.

Lemma safe_path_root W : canonical W -> _safe_path W [] = Ok W.
Proof.
  intros HW.
  assert (Hres : resolve (truediv W []) = W).
  { unfold truediv. cbn. rewrite app_nil_r. now apply resolve_canonical_id. }
  rewrite <- Hres at 2. apply safe_path_accepts_confined; [reflexivity|].
  rewrite Hres, (resolve_canonical_id W HW). apply within_refl.
Qed.



(** ** Writing twice, and listing what slipped through the check *)

Lemma open_write_same p : forall n b,
  find_node n p = Some (File true b) -> open_write n p b = Ok n.
Proof.
  induction p as [|nm rest IH]; intros n b; simpl.
  - intros H. now inversion H.
  - destruct n as [|es]; [discriminate|].
    destruct (assoc nm es) as [c|] eqn:Ec; [|discriminate].
    intros H. rewrite (IH c b H). simpl.
    now rewrite (set_child_same nm c es Ec).
Qed.

(** X6: A write that succeeded can be repeated with [overwrite=True]: it
    succeeds again with the same answer and leaves the tree as the
    first write left it. *)
Theorem write_file_again W fs file_path content overwrite path size lines fs' :
  _safe_path W file_path = Ok path ->
  write_file W fs file_path content overwrite
  = (Ok (MsgSaved file_path size lines), fs') ->
  write_file W fs' file_path content true
  = (Ok (MsgSaved file_path size lines), fs').
Proof.
  intros Hsafe Hwrite.
  pose proof (safe_path_canonical _ _ _ Hsafe) as Hc.
  unfold write_file in Hwrite. rewrite (try_safe_path_ok _ _ _ Hsafe) in Hwrite.
  destruct (exists_ fs path && negb overwrite)%bool; [discriminate|].
  destruct (mkdir_parents fs (parent path)) as [fs1|e] eqn:Em;
    [|discriminate].
  unfold write_text in Hwrite.
  destruct (utf8_encode content) as [b|] eqn:Henc.
  - destruct (open_write fs1 path b) as [fs2|e] eqn:Ew; [|discriminate].
    inversion Hwrite; subst. clear Hwrite.
    pose proof (open_write_find _ _ _ _ Ew) as Hfile.
    assert (Hne : path <> []).
    { intros ->. simpl in Em, Ew. destruct fs as [|es]; [discriminate|].
      inversion Em; subst. discriminate. }
    assert (Hparent : exists es, find_node fs' (parent path) = Some (Dir es)).
    { pose proof Hfile as H. rewrite (path_parent_name path Hne) in H.
      destruct (find_node_prefix fs' _ _ _ H) as (m & Hm & Hdir).
      destruct Hdir as [es ->]; [discriminate|]. eauto. }
    destruct Hparent as [es Hparent].
    unfold write_file.
    rewrite (try_safe_path_ok _ _ _ Hsafe), andb_false_r,
      (mkdir_parents_existing _ _ _ Hparent).
    unfold write_text. now rewrite Henc, (open_write_same _ _ _ Hfile).
  - destruct (open_write fs1 path []); discriminate.
Qed.

Lemma write_file_again_witness :
  write_file Sample.WORKSPACE Sample.notes_ga (lit "new/ga.txt")
    Sample.ga_text true
  = (Ok (MsgSaved (lit "new/ga.txt") 5 2), Sample.notes_ga).
Proof.
  apply (write_file_again Sample.WORKSPACE Sample.notes (lit "new/ga.txt")
           Sample.ga_text false [lit "workspace"; lit "new"; lit "ga.txt"]).
  - reflexivity.
  - vm_compute. reflexivity.
Defined.

Lemma relative_to_outside (base : Path) : forall x rest,
  base <> [] -> x <> last base [] ->
  relative_to (removelast base ++ x :: rest) base = None.
Proof.
  induction base as [|b base IH]; intros x rest Hne Hx; [contradiction|].
  destruct base as [|b2 base].
  - simpl in *. destruct (pystr_eq_dec b x); [now subst|reflexivity].
  - change (removelast (b :: b2 :: base)) with (b :: removelast (b2 :: base)).
    cbn [app relative_to]. destruct (pystr_eq_dec b b); [|contradiction].
    apply IH; [discriminate | exact Hx].
Qed.



(** * Searching below a path that is not a directory *)

(** The selector [rglob] compiles for a pattern without separator: the
    compiler refuses the pattern when it has [**] inside its one part. *)
Lemma make_selector_rglob_one file_pattern :
  has_char SLASH file_pattern = false ->
  match _make_selector (lit "**" :: pattern_parts file_pattern) with
  | Ok _ =>
      file_pattern = lit "**" \/ contains (lit "**") file_pattern = false
  | Raise e =>
      e = ValueError_invalid_pattern /\ file_pattern <> lit "**"
      /\ contains (lit "**") file_pattern = true
  end.
Proof.
  intros Hsep. unfold pattern_parts, parse_parts.
  rewrite (split_no_separator _ _ Hsep), (last_no_separator _ Hsep).
  cbn [filter]. rewrite app_nil_r.
  destruct (pystr_eq_dec file_pattern []) as [->|Hne]; [now right|].
  destruct (pystr_eq_dec file_pattern (lit ".")) as [->|Hdot]; [now right|].
  cbn [_make_selector].
  destruct (pystr_eq_dec (lit "**") []); [discriminate|].
  destruct (pystr_eq_dec (lit "**") (lit "**")); [|contradiction].
  destruct (pystr_eq_dec file_pattern []); [contradiction|].
  destruct (pystr_eq_dec file_pattern (lit "**")) as [->|Hss]; [now left|].
  destruct (contains (lit "**") file_pattern) eqn:Hc; cbn [bind].
  - now repeat split.
  - destruct (_is_wildcard_pattern file_pattern); cbn [bind]; now right.
Qed.

(** C10 (amended): for a directory argument that the path check accepts
    and that resolves to a path the host can look up, a search returns
    the missing-directory text exactly when that path does not exist; a
    directory argument the check refuses gets the text of the check.
    When the resolved path is a regular file, the outcome is decided by
    the file pattern alone: an absolute pattern raises
    [NotImplementedError]; a pattern without separator raises
    [ValueError] when it has [**] inside its one part, and otherwise
    gives the text of an empty result with a count of 0. *)
Theorem search_files_missing_iff W lower fnmatch codecs_lookup fs keyword
  file_pattern directory :
  (forall search_dir,
      _safe_path W directory = Ok search_dir ->
      host_path search_dir = true ->
      (search_files W lower fnmatch codecs_lookup fs keyword file_pattern
         directory
       = Ok (MsgDirectoryMissing directory)
       <-> exists_ fs search_dir = false))
  /\ (forall e,
        _safe_path W directory = Raise e ->
        search_files W lower fnmatch codecs_lookup fs keyword file_pattern
          directory
        = Ok (StrOfException e))
  /\ (forall search_dir openable data,
        _safe_path W directory = Ok search_dir ->
        os_lookup fs search_dir = Some (File openable data) ->
        (isabs file_pattern = true ->
         search_files W lower fnmatch codecs_lookup fs keyword file_pattern
           directory
         = Raise NotImplementedError)
        /\ (has_char SLASH file_pattern = false ->
            search_files W lower fnmatch codecs_lookup fs keyword file_pattern
              directory
            = if pystr_eq_dec file_pattern (lit "**")
              then Ok (MsgSearchNone keyword directory file_pattern 0)
              else if contains (lit "**") file_pattern
                   then Raise ValueError_invalid_pattern
                   else Ok (MsgSearchNone keyword directory file_pattern 0))).
Proof.
  split; [|split].
  - intros search_dir Hsafe _. unfold search_files.
    rewrite (try_safe_path_ok _ _ _ Hsafe). split.
    + destruct (exists_ fs search_dir) eqn:Hex; simpl; [|reflexivity].
      destruct (rglob fnmatch fs search_dir file_pattern) as [files|e];
        simpl; [|discriminate].
      destruct (search_loop _ _ _ _ _ _ _ _) as [[[|r rs] k]|e]; simpl;
        discriminate.
    + intros ->. reflexivity.
  - intros e He. unfold search_files.
    now rewrite (try_safe_path_raise _ _ _ He).
  - intros search_dir openable data Hsafe Hnode.
    assert (Hstart : search_files W lower fnmatch codecs_lookup fs keyword
                       file_pattern directory
                     = match rglob fnmatch fs search_dir file_pattern with
                       | Ok _ =>
                           Ok (MsgSearchNone keyword directory file_pattern 0)
                       | Raise e => Raise e
                       end).
    { unfold search_files.
      rewrite (try_safe_path_ok _ _ _ Hsafe), (exists_lookup _ _ _ Hnode).
      unfold rglob, select_from. cbn [negb].
      destruct (isabs file_pattern); [reflexivity|].
      destruct (_make_selector _) as [sel|e]; [|reflexivity].
      cbn [bind]. rewrite (is_dir_file _ _ _ _ Hnode). reflexivity. }
    rewrite Hstart. unfold rglob. split.
    + intros ->. reflexivity.
    + intros Hsep. rewrite (isabs_no_separator _ Hsep).
      pose proof (make_selector_rglob_one file_pattern Hsep) as Hsel.
      destruct (_make_selector _) as [sel|e]; cbn [bind].
      * destruct (pystr_eq_dec file_pattern (lit "**")); [reflexivity|].
        destruct Hsel as [Hss| ->]; [contradiction | reflexivity].
      * destruct Hsel as (-> & Hss & ->).
        destruct (pystr_eq_dec file_pattern (lit "**"));
          [contradiction | reflexivity].
Qed.

Lemma search_files_missing_iff_witness :
  search_files Sample.WORKSPACE ascii_lower fnmatch_simple std_codecs
    Sample.notes (lit "hello") (lit "*.txt") (lit "a.txt")
  = Ok (MsgSearchNone (lit "hello") (lit "a.txt") (lit "*.txt") 0).
Proof.
  apply (proj2 (proj2 (proj2 (search_files_missing_iff Sample.WORKSPACE
                                ascii_lower fnmatch_simple std_codecs
                                Sample.notes (lit "hello") (lit "*.txt")
                                (lit "a.txt")))
                  [lit "workspace"; lit "a.txt"] true
                  (Sample.text "first line" ++ [x0a]
                     ++ Sample.text "hello world" ++ [x0a])
                  eq_refl eq_refl)).
  reflexivity.
Defined.

(** A search on a regular file that fails: with a pattern that has [**]
    inside a part, and with an absolute pattern. *)
Lemma search_files_on_file_raises :
  search_files Sample.WORKSPACE ascii_lower fnmatch_simple std_codecs
    Sample.notes (lit "hello") (lit "a**") (lit "a.txt")
  = Raise ValueError_invalid_pattern
  /\ search_files Sample.WORKSPACE ascii_lower fnmatch_simple std_codecs
       Sample.notes (lit "hello") (lit "/abs") (lit "a.txt")
     = Raise NotImplementedError.
Proof. split; vm_compute; reflexivity. Qed.

(** * What reaches the dispatcher *)

Lemma open_write_directory p : forall n data es,
  find_node n p = Some (Dir es) ->
  open_write n p data = Raise IsADirectoryError.
Proof.
  induction p as [|nm rest IH]; intros n data es; simpl.
  - intros H. inversion H. reflexivity.
  - destruct n as [|ents]; [discriminate|].
    destruct (assoc nm ents) as [c|]; [|discriminate].
    intros H. now rewrite (IH c data es H).
Qed.

Lemma find_parent_directory n path es :
  find_node n path = Some (Dir es) ->
  exists es', find_node n (parent path) = Some (Dir es').
Proof.
  intros H. destruct path as [|nm rest] eqn:E; [eauto|].
  rewrite <- E in *. assert (Hne : path <> []) by (rewrite E; discriminate).
  rewrite (path_parent_name path Hne) in H.
  now apply (find_dir_prefix n (parent path) [name path] es).
Qed.



